(** * The agent supervisor of magalix-agent: lifecycle, wiring, cancellation

    A shallow embedding of [agent/agent.go] (the [Agent] supervisor: [New],
    [Start], [Stop], [stopSources], [stopSinks]) and of
    [ConfigureGlobalLogger] from [main.go], with the properties the
    specification states about them.

    Go values are modelled as follows.
    - [error] is the message of the error; a nil error is [None].
    - [time.Duration] is an [int64] count of nanoseconds, here a [Z].
    - A [context.Context] made by [context.WithCancel] is the chain of its
      ancestors; each link has the identifier of its cancel function.  The
      set of fired cancel functions is part of the process state, and a
      context is done when one link of its chain has fired.
    - The collaborators are interfaces: an implementation is a record of
      the behaviour of its methods.  A long-running [Start(ctx)] is a
      [behaviour]: at each scheduling step it sees how many steps it has
      taken and whether its context is done, and it either goes on or
      returns.
    - Goroutines are interleaved by an explicit schedule, a list of
      [action]s, which is consumed where the supervisor blocks.  A step of
      a goroutine between two statements of [Start] that do not block
      changes nothing [Start] reads there, so it is scheduled at the next
      blocking point.
    - The process has one agent, started once, as [main] does it: there is
      one [errgroup.Group], and every task belongs to it.

    [Exit], which ends the process, is left out. *)

From Stdlib Require Import ZArith.
From stdpp Require Import gmap strings list.

(** ** Go base types *)

Definition error := string.

Definition Duration := Z.

Definition Nanosecond : Duration := 1%Z.
Definition Microsecond : Duration := (1000 * Nanosecond)%Z.
Definition Millisecond : Duration := (1000 * Microsecond)%Z.
Definition Second : Duration := (1000 * Millisecond)%Z.
Definition Minute : Duration := (60 * Second)%Z.
Definition Hour : Duration := (60 * Minute)%Z.

(** [uuid.UUID] is a 128-bit value; its zero value is the nil UUID. *)
Definition UUID := N.
Definition uuid_zero : UUID := 0%N.

(** ** The logging library

    [main.go] configures the process-wide logger of
    github.com/MagalixTechnologies/core/logger.  The library is outside the
    repository; what [ConfigureGlobalLogger] relies on is that the logger
    has a severity, a sink and global fields, that [ConfigWriterSync] sets
    the first two and that [WithGlobal] adds fields. *)

Inductive logger_Level := DebugLevel | InfoLevel | WarnLevel | ErrorLevel.

Definition WriteSyncer := nat.

Record Logger := {
  logger_level : logger_Level;
  logger_sink : WriteSyncer;
  logger_global : list (string * UUID)
}.

Definition ConfigWriterSync (level : logger_Level) (w : WriteSyncer) (lg : Logger) : Logger :=
  {| logger_level := level; logger_sink := w; logger_global := logger_global lg |}.

Definition WithGlobal (keysAndValues : list (string * UUID)) (lg : Logger) : Logger :=
  {| logger_level := logger_level lg; logger_sink := logger_sink lg;
     logger_global := logger_global lg ++ keysAndValues |}.

(** ** package main *)

(** [ConfigureGlobalLogger] sets additional info and log level for the
    global logger.  The [switch] on the level name returns from its
    [default] branch before the logger is touched. *)
Definition ConfigureGlobalLogger (accountId clusterId : UUID) (level : string)
    (logsSink : WriteSyncer) (lg : Logger) : option error * Logger :=
  match
    (if decide (level = "info"%string) then Some InfoLevel
     else if decide (level = "debug"%string) then Some DebugLevel
     else if decide (level = "warn"%string) then Some WarnLevel
     else if decide (level = "error"%string) then Some ErrorLevel
     else None)
  with
  | None => (Some ("unsupported log level " +:+ level)%string, lg)
  | Some loggerLevel =>
    (None,
     WithGlobal [("accountID"%string, accountId); ("clusterID"%string, clusterId)]
       (ConfigWriterSync loggerLevel logsSink lg))
  end.

(** ** package context *)

Definition CancelFunc := nat.

Inductive Context :=
| Background
| WithCancelCtx (id : CancelFunc) (parent : Context).

(** [ctx.Done()] is closed when the cancel function of [ctx] or of one of
    its ancestors has been called. *)
Fixpoint Done (fired : gset CancelFunc) (ctx : Context) : bool :=
  match ctx with
  | Background => false
  | WithCancelCtx id parent => bool_decide (id ∈ fired) || Done fired parent
  end.

(** The cancel functions that cancel [ctx]: its own and its ancestors'. *)
Fixpoint chain (ctx : Context) : list CancelFunc :=
  match ctx with
  | Background => []
  | WithCancelCtx id parent => id :: chain parent
  end.

(** ** Collaborator interfaces *)

(** What one scheduling step of a running [Start(ctx)] does: [None] to keep
    running, [Some r] to return [r]. *)
Definition behaviour := nat -> bool -> option (option error).

Record Gateway := {
  Gateway_Start : behaviour;
  WaitAuthorization : Duration -> option error
}.

Record MetricsSource := { MetricsSource_Start : behaviour }.
Record EntitiesSource := { EntitiesSource_Start : behaviour }.
Record AutomationExecutor := { AutomationExecutor_Start : behaviour }.
Record Auditor := { Auditor_Start : behaviour }.

Inductive component :=
| CGateway | CEntitiesSource | CMetricsSource | CAutomationExecutor | CAuditor.

#[global] Instance component_eq_dec : EqDecision component.
Proof. solve_decision. Defined.

(** The setters of the collaborators, one per event kind. *)
Inductive slot :=
| SetAutomationFeedbackHandler   (* AutomationExecutor *)
| SetAutomationHandler           (* Gateway *)
| SetMetricsHandler              (* MetricsSource *)
| SetDeltasHandler               (* EntitiesSource *)
| SetEntitiesResyncHandler       (* EntitiesSource *)
| SetAuditResultHandler          (* Auditor *)
| SetAuditCommandHandler         (* Gateway *)
| SetConstraintsHandler          (* Gateway *)
| SetRestartHandler              (* Gateway *)
| SetChangeLogLevelHandler.      (* Gateway *)

#[global] Instance slot_eq_dec : EqDecision slot.
Proof. solve_decision. Defined.

(** The method values handed over as callbacks. *)
Inductive callback :=
| handleAutomationFeedback       (* a.handleAutomationFeedback *)
| SubmitAutomation               (* a.AutomationExecutor.SubmitAutomation *)
| handleMetrics
| handleDeltas
| handleResync
| handleAuditResult
| HandleAuditCommand             (* a.Auditor.HandleAuditCommand *)
| HandleConstraints              (* a.Auditor.HandleConstraints *)
| handleRestart
| handleLogLevelChange.

#[global] Instance callback_eq_dec : EqDecision callback.
Proof. solve_decision. Defined.

(** ** The Agent *)

Record LogLevel := { Level : string }.

Definition ChangeLogLevelHandler := LogLevel -> Logger -> option error * Logger.

(** The handler [main] gives to [agent.New], a closure over the account,
    the cluster and the gateway's log sink:
    [func(level *agent.LogLevel) error {
       return ConfigureGlobalLogger(accountID, clusterID, level.Level, sink) }] *)
Definition logLevelHandler (accountID clusterID : UUID) (logsSink : WriteSyncer)
    : ChangeLogLevelHandler :=
  fun level => ConfigureGlobalLogger accountID clusterID (Level level) logsSink.

Record Agent := {
  AccountID : UUID;
  ClusterID : UUID;
  AgentID : UUID;

  aMetricsSource : MetricsSource;
  aEntitiesSource : EntitiesSource;
  aAutomationExecutor : AutomationExecutor;
  aGateway : Gateway;
  aAuditor : Auditor;

  EnableMetrics : bool;
  EnableAutomation : bool;

  changeLogLevel : option ChangeLogLevelHandler;

  cancelAll : option CancelFunc;
  cancelSources : option CancelFunc;
  cancelSinks : option CancelFunc
}.

Definition AuthorizationTimeoutDuration : Duration := (2 * Hour)%Z.

(** [New] fills the collaborators, the log-level handler and the two flags;
    every other field keeps the zero value of its type. *)
Definition New (metricsSource : MetricsSource) (entitiesSource : EntitiesSource)
    (automationExecutor : AutomationExecutor) (gateway : Gateway)
    (logLevelHandler : option ChangeLogLevelHandler) (auditor : Auditor)
    (enableMetrics enableAutomation : bool) : Agent :=
  {| AccountID := uuid_zero; ClusterID := uuid_zero; AgentID := uuid_zero;
     aMetricsSource := metricsSource;
     aEntitiesSource := entitiesSource;
     aAutomationExecutor := automationExecutor;
     aGateway := gateway;
     aAuditor := auditor;
     EnableMetrics := enableMetrics;
     EnableAutomation := enableAutomation;
     changeLogLevel := logLevelHandler;
     cancelAll := None; cancelSources := None; cancelSinks := None |}.

(** ** The process state *)

(** One function launched with [eg.Go]: the collaborator it runs, the
    behaviour of that collaborator's [Start], the context it was given, the
    steps it has taken, and its return value once it has returned. *)
Record task := {
  who : component;
  run : behaviour;
  ctx : Context;
  steps : nat;
  result : option (option error)
}.

(** [errgroup.Group]: the cancel function of the derived context and the
    first non-nil error ([errOnce] has fired exactly when [g_err] is set). *)
Record Group := { g_cancel : option CancelFunc; g_err : option error }.

Inductive event :=
| Registered (s : slot) (cb : callback)
| Spawned (c : component) (ctx : Context)
| Invoked (c : component) (ctx : Context)
| Returned (c : component) (r : option error)
| Authorization (timeout : Duration) (r : option error).

Record State := {
  self : Agent;
  fired : gset CancelFunc;
  next_cancel : CancelFunc;
  handlers : slot -> option callback;
  tasks : list task;
  eg : Group;
  trace : list event
}.

Definition set_self (f : Agent -> Agent) (st : State) : State :=
  {| self := f (self st); fired := fired st; next_cancel := next_cancel st;
     handlers := handlers st; tasks := tasks st; eg := eg st; trace := trace st |}.

Definition set_fired (f : gset CancelFunc -> gset CancelFunc) (st : State) : State :=
  {| self := self st; fired := f (fired st); next_cancel := next_cancel st;
     handlers := handlers st; tasks := tasks st; eg := eg st; trace := trace st |}.

Definition set_next_cancel (f : CancelFunc -> CancelFunc) (st : State) : State :=
  {| self := self st; fired := fired st; next_cancel := f (next_cancel st);
     handlers := handlers st; tasks := tasks st; eg := eg st; trace := trace st |}.

Definition set_handlers (f : (slot -> option callback) -> slot -> option callback)
    (st : State) : State :=
  {| self := self st; fired := fired st; next_cancel := next_cancel st;
     handlers := f (handlers st); tasks := tasks st; eg := eg st; trace := trace st |}.

Definition set_tasks (f : list task -> list task) (st : State) : State :=
  {| self := self st; fired := fired st; next_cancel := next_cancel st;
     handlers := handlers st; tasks := f (tasks st); eg := eg st; trace := trace st |}.

Definition set_eg (f : Group -> Group) (st : State) : State :=
  {| self := self st; fired := fired st; next_cancel := next_cancel st;
     handlers := handlers st; tasks := tasks st; eg := f (eg st); trace := trace st |}.

Definition set_trace (f : list event -> list event) (st : State) : State :=
  {| self := self st; fired := fired st; next_cancel := next_cancel st;
     handlers := handlers st; tasks := tasks st; eg := eg st; trace := f (trace st) |}.

Definition with_cancelAll (c : option CancelFunc) (a : Agent) : Agent :=
  {| AccountID := AccountID a; ClusterID := ClusterID a; AgentID := AgentID a;
     aMetricsSource := aMetricsSource a; aEntitiesSource := aEntitiesSource a;
     aAutomationExecutor := aAutomationExecutor a; aGateway := aGateway a;
     aAuditor := aAuditor a;
     EnableMetrics := EnableMetrics a; EnableAutomation := EnableAutomation a;
     changeLogLevel := changeLogLevel a;
     cancelAll := c; cancelSources := cancelSources a; cancelSinks := cancelSinks a |}.

Definition with_cancelSources (c : option CancelFunc) (a : Agent) : Agent :=
  {| AccountID := AccountID a; ClusterID := ClusterID a; AgentID := AgentID a;
     aMetricsSource := aMetricsSource a; aEntitiesSource := aEntitiesSource a;
     aAutomationExecutor := aAutomationExecutor a; aGateway := aGateway a;
     aAuditor := aAuditor a;
     EnableMetrics := EnableMetrics a; EnableAutomation := EnableAutomation a;
     changeLogLevel := changeLogLevel a;
     cancelAll := cancelAll a; cancelSources := c; cancelSinks := cancelSinks a |}.

Definition with_cancelSinks (c : option CancelFunc) (a : Agent) : Agent :=
  {| AccountID := AccountID a; ClusterID := ClusterID a; AgentID := AgentID a;
     aMetricsSource := aMetricsSource a; aEntitiesSource := aEntitiesSource a;
     aAutomationExecutor := aAutomationExecutor a; aGateway := aGateway a;
     aAuditor := aAuditor a;
     EnableMetrics := EnableMetrics a; EnableAutomation := EnableAutomation a;
     changeLogLevel := changeLogLevel a;
     cancelAll := cancelAll a; cancelSources := cancelSources a; cancelSinks := c |}.

(** The process just after [agent.New]: nothing wired, nothing running. *)
Definition boot (a : Agent) : State :=
  {| self := a; fired := ∅; next_cancel := 0; handlers := fun _ => None;
     tasks := []; eg := {| g_cancel := None; g_err := None |}; trace := [] |}.

(** ** A state monad for the supervisor's code *)

Definition M (A : Type) : Type := State -> A * State.

Definition ret {A} (x : A) : M A := fun st => (x, st).

Definition bind {A B} (m : M A) (k : A -> M B) : M B :=
  fun st => let (x, st') := m st in k x st'.

Notation "x <~ m ;; k" := (bind m (fun x => k))
  (at level 100, m at next level, right associativity).
Notation "m ;;; k" := (bind m (fun _ => k))
  (at level 100, right associativity).

Definition get : M State := fun st => (st, st).
Definition modify (f : State -> State) : M unit := fun st => (tt, f st).
Definition emit (e : event) : M unit := modify (set_trace (fun tr => tr ++ [e])).

(** *** package context, continued *)

Definition context_WithCancel (parent : Context) : M (Context * CancelFunc) :=
  st <~ get ;;
  let f := next_cancel st in
  modify (set_next_cancel S) ;;;
  ret (WithCancelCtx f parent, f).

(** Calling a cancel function; a second call changes nothing. *)
Definition call_cancel (f : CancelFunc) : M unit :=
  modify (set_fired (fun s => {[f]} ∪ s)).

(** *** Handler registration: each setter keeps the last callback given *)

Definition set_handler (s : slot) (cb : callback) (h : slot -> option callback)
    : slot -> option callback :=
  fun s' => if decide (s' = s) then Some cb else h s'.

Definition register (s : slot) (cb : callback) : M unit :=
  modify (set_handlers (set_handler s cb)) ;;;
  emit (Registered s cb).

(** *** package errgroup *)

Definition errgroup_WithContext (parent : Context) : M Context :=
  p <~ context_WithCancel parent ;;
  let '(c, cancel) := p in
  modify (set_eg (fun _ => {| g_cancel := Some cancel; g_err := None |})) ;;;
  ret c.

(** A task that has been launched and has not taken a step. *)
Definition new_task (c : component) (b : behaviour) (cx : Context) : task :=
  {| who := c; run := b; ctx := cx; steps := 0; result := None |}.

(** [eg.Go(func() error { return c.Start(ctx) })] *)
Definition eg_Go (c : component) (b : behaviour) (cx : Context) : M unit :=
  modify (set_tasks (fun ts => ts ++ [new_task c b cx])) ;;;
  emit (Spawned c cx).

(** What the goroutine of [eg.Go] does when its function returns [r]: a
    non-nil error is kept if it is the first, and then the derived context
    is cancelled. *)
Definition eg_returned (r : option error) : M unit :=
  match r with
  | None => ret tt
  | Some e =>
    st <~ get ;;
    match g_err (eg st) with
    | Some _ => ret tt
    | None =>
      modify (set_eg (fun g => {| g_cancel := g_cancel g; g_err := Some e |})) ;;;
      match g_cancel (eg st) with
      | Some f => call_cancel f
      | None => ret tt
      end
    end
  end.

(** The task [t] after one more step, with its return value if it has
    returned. *)
Definition stepped (t : task) (r : option (option error)) : task :=
  {| who := who t; run := run t; ctx := ctx t; steps := S (steps t); result := r |}.

Definition is_live (c : component) (t : task) : Prop :=
  who t = c ∧ result t = None.

#[global] Instance is_live_dec c t : Decision (is_live c t).
Proof. unfold is_live. apply _. Defined.

(** One scheduling step of the goroutine that runs [c]'s [Start]: nothing
    if there is none, or if it has returned. *)
Definition tick (c : component) : M unit :=
  st <~ get ;;
  match list_find (is_live c) (tasks st) with
  | None => ret tt
  | Some (i, t) =>
    (if decide (steps t = 0) then emit (Invoked c (ctx t)) else ret tt) ;;;
    match run t (steps t) (Done (fired st) (ctx t)) with
    | None =>
      modify (set_tasks (fun ts => <[i := stepped t None]> ts))
    | Some r =>
      modify (set_tasks (fun ts => <[i := stepped t (Some r)]> ts)) ;;;
      emit (Returned c r) ;;;
      eg_returned r
    end
  end.

(** ** The supervisor's operations *)

Definition stopSources : M (option error) :=
  st <~ get ;;
  match cancelSources (self st) with
  | None => ret None
  | Some f =>
    call_cancel f ;;;
    modify (set_self (with_cancelSources None)) ;;;
    ret None
  end.

Definition stopSinks : M (option error) :=
  st <~ get ;;
  match cancelSinks (self st) with
  | None => ret None
  | Some f =>
    call_cancel f ;;;
    modify (set_self (with_cancelSinks None)) ;;;
    ret None
  end.

Definition Stop : M (option error) :=
  st <~ get ;;
  match cancelAll (self st) with
  | None => ret None
  | Some f =>
    call_cancel f ;;;
    modify (set_self (with_cancelAll None)) ;;;
    ret None
  end.

(** ** Interleaving *)

(** What can happen while the supervisor is blocked: a goroutine of the
    group takes a step, or some other goroutine (a handler, say) calls one
    of the stop operations on the agent. *)
Inductive action :=
| Tick (c : component)
| CallStop
| CallStopSources
| CallStopSinks.

Definition perform (x : action) : M unit :=
  match x with
  | Tick c => tick c
  | CallStop => Stop ;;; ret tt
  | CallStopSources => stopSources ;;; ret tt
  | CallStopSinks => stopSinks ;;; ret tt
  end.

Fixpoint interleave (sched : list action) : M unit :=
  match sched with
  | [] => ret tt
  | x :: sched' => perform x ;;; interleave sched'
  end.

(** What the caller of a blocking operation sees at the end of the
    schedule: the operation has returned, or the caller is still blocked. *)
Inductive outcome :=
| Ret (err : option error)
| Blocked.

Definition has_returned (t : task) : bool :=
  match result t with Some _ => true | None => false end.

(** [eg.Wait()]: blocks until every function launched with [eg.Go] has
    returned, then cancels the derived context and returns the first
    non-nil error, if any. *)
Fixpoint eg_Wait (sched : list action) : M outcome :=
  st <~ get ;;
  if forallb has_returned (tasks st) then
    match g_cancel (eg st) with
    | Some f => call_cancel f
    | None => ret tt
    end ;;;
    ret (Ret (g_err (eg st)))
  else
    match sched with
    | [] => ret Blocked
    | x :: sched' => perform x ;;; eg_Wait sched'
    end.

(** [a.Gateway.WaitAuthorization(timeout)]: the caller blocks while the
    other goroutines go on, and gets the gateway's answer.  Whether the
    gate opens, is refused or times out is the gateway's business: its
    implementation gives the answer for a timeout. *)
Definition Gateway_WaitAuthorization (timeout : Duration) (sched : list action)
    : M (option error) :=
  st <~ get ;;
  interleave sched ;;;
  let err := WaitAuthorization (aGateway (self st)) timeout in
  emit (Authorization timeout err) ;;;
  ret err.

(** [defer f()]: [f] runs when the function returns, not while it blocks. *)
Definition defer {A} (f : M unit) (body : M (A * outcome)) : M (A * outcome) :=
  r <~ body ;;
  match snd r with
  | Ret _ => f ;;; ret r
  | Blocked => ret r
  end.

(** The contexts [Start] creates, returned with its outcome so that
    statements can name them. *)
Record locals := { allCtx : Context; sourcesCtx : Context; sinksCtx : Context }.

Definition when (b : bool) (m : M unit) : M unit := if b then m else ret tt.

(** [during_auth] is what the other goroutines do while [Start] is blocked
    in [WaitAuthorization], [during_wait] what they do while it is blocked
    in [eg.Wait].  The fields of [a] that [Start] reads after its set-up
    (the collaborators and the two flags) are never assigned, so they are
    read once. *)
Definition Start (during_auth during_wait : list action) : M (locals * outcome) :=
  p <~ context_WithCancel Background ;;
  let '(allCtx, cancelAll) := p in
  modify (set_self (with_cancelAll (Some cancelAll))) ;;;
  defer (call_cancel cancelAll) (

  p <~ context_WithCancel allCtx ;;
  let '(sourcesCtx, cancelSources) := p in
  modify (set_self (with_cancelSources (Some cancelSources))) ;;;
  p <~ context_WithCancel allCtx ;;
  let '(sinksCtx, cancelSinks) := p in
  modify (set_self (with_cancelSinks (Some cancelSinks))) ;;;
  let frame := {| allCtx := allCtx; sourcesCtx := sourcesCtx; sinksCtx := sinksCtx |} in

  st <~ get ;;
  let a := self st in
  when (EnableAutomation a) (
    register SetAutomationFeedbackHandler handleAutomationFeedback ;;;
    register SetAutomationHandler SubmitAutomation) ;;;

  when (EnableMetrics a) (
    register SetMetricsHandler handleMetrics) ;;;

  register SetDeltasHandler handleDeltas ;;;
  register SetEntitiesResyncHandler handleResync ;;;

  register SetAuditResultHandler handleAuditResult ;;;

  register SetAuditCommandHandler HandleAuditCommand ;;;
  register SetConstraintsHandler HandleConstraints ;;;
  register SetRestartHandler handleRestart ;;;
  register SetChangeLogLevelHandler handleLogLevelChange ;;;

  _ <~ errgroup_WithContext allCtx ;;
  eg_Go CGateway (Gateway_Start (aGateway a)) sinksCtx ;;;
  err <~ Gateway_WaitAuthorization AuthorizationTimeoutDuration during_auth ;;
  match err with
  | Some e => ret (frame, Ret (Some e))
  | None =>
    eg_Go CEntitiesSource (EntitiesSource_Start (aEntitiesSource a)) sourcesCtx ;;;
    when (EnableMetrics a) (
      eg_Go CMetricsSource (MetricsSource_Start (aMetricsSource a)) sourcesCtx) ;;;
    when (EnableAutomation a) (
      eg_Go CAutomationExecutor (AutomationExecutor_Start (aAutomationExecutor a)) sourcesCtx) ;;;
    eg_Go CAuditor (Auditor_Start (aAuditor a)) sourcesCtx ;;;

    r <~ eg_Wait during_wait ;;
    ret (frame, r)
  end).

(** ** Some behaviours of a collaborator's [Start] *)

(** Returns [r] at its first step, whatever its context says. *)
Definition returns_at_once (r : option error) : behaviour :=
  fun _ _ => Some r.

(** Runs until its context is done, then returns [r]. *)
Definition until_cancelled (r : option error) : behaviour :=
  fun _ done => if done then Some r else None.

(** Takes [n] steps, then returns [r]; it never looks at its context. *)
Definition returns_after (n : nat) (r : option error) : behaviour :=
  fun k _ => if decide (n ≤ k) then Some r else None.

(** Never returns. *)
Definition runs_forever : behaviour := fun _ _ => None.

(** ** Sample collaborators *)

(** A gateway whose transport runs until its context is cancelled and whose
    authorization gate answers [auth]. *)
Definition sample_gateway (auth : option error) : Gateway :=
  {| Gateway_Start := until_cancelled None; WaitAuthorization := fun _ => auth |}.

(** An agent around [gw] whose entities source behaves as [es] and whose
    other sources run until they are cancelled. *)
Definition sample_agent (gw : Gateway) (es : behaviour) (enableMetrics enableAutomation : bool)
    : Agent :=
  New {| MetricsSource_Start := until_cancelled None |}
      {| EntitiesSource_Start := es |}
      {| AutomationExecutor_Start := until_cancelled None |}
      gw
      None
      {| Auditor_Start := until_cancelled None |}
      enableMetrics enableAutomation.

(** An agent whose entities source fails at once with the error boom,
    while its gateway and its auditor run until they are cancelled. *)
Definition failing_agent : Agent :=
  sample_agent (sample_gateway None) (returns_at_once (Some "boom"%string)) false false.

(** The group of [failing_agent] after the failure: the error is kept and
    the context derived by [errgroup.WithContext] is the only one
    cancelled; the Gateway's task and the auditor's are running, on
    contexts that nothing has cancelled. *)
Definition stuck (st : State) : Prop :=
  fired st = {[3]} ∧
  eg st = {| g_cancel := Some 3; g_err := Some "boom"%string |} ∧
  ∃ k1 k2,
    tasks st =
      [{| who := CGateway; run := until_cancelled None;
          ctx := WithCancelCtx 2 (WithCancelCtx 0 Background);
          steps := k1; result := None |};
       {| who := CEntitiesSource; run := returns_at_once (Some "boom"%string);
          ctx := WithCancelCtx 1 (WithCancelCtx 0 Background);
          steps := 1; result := Some (Some "boom"%string) |};
       {| who := CAuditor; run := until_cancelled None;
          ctx := WithCancelCtx 1 (WithCancelCtx 0 Background);
          steps := k2; result := None |}].

(** The identity of an agent. *)
Definition identity (a : Agent) : UUID * UUID * UUID :=
  (AccountID a, ClusterID a, AgentID a).

(** ** The stages of a run of [Start], as states

    [Start] runs straight through its set-up, blocks for the authorization,
    launches the sources and blocks in [eg.Wait].  The states between these
    stages are written out here; [Start_unfold] below shows that [Start]
    goes through exactly them. *)

Definition Start_frame (st : State) : locals :=
  let all := WithCancelCtx (next_cancel st) Background in
  {| allCtx := all;
     sourcesCtx := WithCancelCtx (S (next_cancel st)) all;
     sinksCtx := WithCancelCtx (S (S (next_cancel st))) all |}.

(** The registrations [Start] makes, in order. *)
Definition wiring (a : Agent) : list (slot * callback) :=
  (if EnableAutomation a
   then [(SetAutomationFeedbackHandler, handleAutomationFeedback);
         (SetAutomationHandler, SubmitAutomation)]
   else []) ++
  (if EnableMetrics a then [(SetMetricsHandler, handleMetrics)] else []) ++
  [(SetDeltasHandler, handleDeltas);
   (SetEntitiesResyncHandler, handleResync);
   (SetAuditResultHandler, handleAuditResult);
   (SetAuditCommandHandler, HandleAuditCommand);
   (SetConstraintsHandler, HandleConstraints);
   (SetRestartHandler, handleRestart);
   (SetChangeLogLevelHandler, handleLogLevelChange)].

(** The sources [Start] launches after the authorization, in order. *)
Definition sources (a : Agent) (cx : Context) : list task :=
  [new_task CEntitiesSource (EntitiesSource_Start (aEntitiesSource a)) cx] ++
  (if EnableMetrics a
   then [new_task CMetricsSource (MetricsSource_Start (aMetricsSource a)) cx]
   else []) ++
  (if EnableAutomation a
   then [new_task CAutomationExecutor (AutomationExecutor_Start (aAutomationExecutor a)) cx]
   else []) ++
  [new_task CAuditor (Auditor_Start (aAuditor a)) cx].

(** Handlers wired, Gateway launched; [Start] is about to block in
    [WaitAuthorization]. *)
Definition after_setup (st : State) : State :=
  let f := next_cancel st in
  let fr := Start_frame st in
  {| self := with_cancelSinks (Some (S (S f)))
               (with_cancelSources (Some (S f)) (with_cancelAll (Some f) (self st)));
     fired := fired st;
     next_cancel := S (S (S (S f)));
     handlers := foldl (fun h p => set_handler p.1 p.2 h) (handlers st) (wiring (self st));
     tasks := tasks st ++ [new_task CGateway (Gateway_Start (aGateway (self st))) (sinksCtx fr)];
     eg := {| g_cancel := Some (S (S (S f))); g_err := None |};
     trace := trace st ++ ((fun p => Registered p.1 p.2) <$> wiring (self st))
                       ++ [Spawned CGateway (sinksCtx fr)] |}.

(** [WaitAuthorization] has returned [r]. *)
Definition authorized (r : option error) (st : State) : State :=
  set_trace (fun tr => tr ++ [Authorization AuthorizationTimeoutDuration r]) st.

(** The sources launched; [Start] is about to block in [eg.Wait]. *)
Definition launched (a : Agent) (cx : Context) (st : State) : State :=
  set_trace (fun tr => tr ++ ((fun t => Spawned (who t) (ctx t)) <$> sources a cx))
    (set_tasks (fun ts => ts ++ sources a cx) st).

(** The deferred [a.cancelAll()] has run. *)
Definition deferred (f : CancelFunc) (st : State) : State :=
  set_fired (fun s => {[f]} ∪ s) st.

(** ** What the other goroutines can and cannot change

    While the supervisor is blocked, the tasks of the group take steps and
    the stop operations may be called.  [evolves st st'] collects what is
    known of the state [st'] these reach from [st]. *)

(** The agent without its three cancel handles: its configuration. *)
Definition config (a : Agent) : Agent :=
  with_cancelSinks None (with_cancelSources None (with_cancelAll None a)).

(** A handle is only ever reset to nil. *)
Definition handle_kept (h' h : option CancelFunc) : Prop := h' = None ∨ h' = h.

Definition opt_set (o : option CancelFunc) : gset CancelFunc :=
  match o with Some f => {[f]} | None => ∅ end.

(** The cancel functions somebody still holds: the agent's handles and the
    one of the group. *)
Definition stoppable (st : State) : gset CancelFunc :=
  opt_set (cancelAll (self st)) ∪ opt_set (cancelSources (self st)) ∪
  opt_set (cancelSinks (self st)) ∪ opt_set (g_cancel (eg st)).

(** What of a task never changes. *)
Definition static (t : task) : component * Context := (who t, ctx t).

(** The events a running task adds to the trace. *)
Definition task_event (cs : list component) (e : event) : Prop :=
  match e with
  | Invoked c _ | Returned c _ => c ∈ cs
  | _ => False
  end.

Record evolves (st st' : State) : Prop := {
  ev_config : config (self st') = config (self st);
  ev_cancelAll : handle_kept (cancelAll (self st')) (cancelAll (self st));
  ev_cancelSources : handle_kept (cancelSources (self st')) (cancelSources (self st));
  ev_cancelSinks : handle_kept (cancelSinks (self st')) (cancelSinks (self st));
  ev_fired_mono : fired st ⊆ fired st';
  ev_fired_from : fired st' ⊆ fired st ∪ stoppable st;
  ev_next : next_cancel st' = next_cancel st;
  ev_handlers : handlers st' = handlers st;
  ev_static : static <$> tasks st' = static <$> tasks st;
  ev_group : g_cancel (eg st') = g_cancel (eg st);
  ev_trace : ∃ evs, trace st' = trace st ++ evs ∧
                    Forall (task_event (who <$> tasks st)) evs
}.

(** The error of the first task that returned one, as the trace has it. *)
Fixpoint first_error (tr : list event) : option error :=
  match tr with
  | [] => None
  | Returned _ (Some e) :: _ => Some e
  | _ :: tr' => first_error tr'
  end.

(** The group has kept the first error, and nothing else. *)
Definition keeps_first_error (st : State) : Prop :=
  g_err (eg st) = first_error (trace st).

(** ** Stopping once

    What it is for a stop operation [op] on the handle [handle] to be total
    and idempotent at [st]: it returns nil; when the handle is nil the
    state is unchanged; otherwise the handle's cancel function is fired,
    the handle becomes nil and nothing else changes; and calling it again,
    any number of times, returns nil and changes nothing more. *)
Definition stops_once (op : M (option error)) (handle : Agent -> option CancelFunc)
    (reset : Agent -> Agent) (st : State) : Prop :=
  (op st).1 = None ∧
  match handle (self st) with
  | None => (op st).2 = st
  | Some f =>
    (op st).2 = set_self reset (set_fired (fun s => {[f]} ∪ s) st) ∧
    f ∈ fired (op st).2 ∧
    handle (self (op st).2) = None
  end ∧
  op (op st).2 = (None, (op st).2) ∧
  ∀ n, Nat.iter (S n) (fun s => (op s).2) st = (op st).2.

(** ** Cooperative collaborators

    A [Start] honours cancellation when, once its context is done, it
    returns at its next step, whatever it returns. *)
Definition honours_cancellation (b : behaviour) : Prop :=
  ∀ k, is_Some (b k true).

Definition cooperative (a : Agent) : Prop :=
  honours_cancellation (Gateway_Start (aGateway a)) ∧
  honours_cancellation (EntitiesSource_Start (aEntitiesSource a)) ∧
  honours_cancellation (MetricsSource_Start (aMetricsSource a)) ∧
  honours_cancellation (AutomationExecutor_Start (aAutomationExecutor a)) ∧
  honours_cancellation (Auditor_Start (aAuditor a)).

(** Every collaborator once: a round of the scheduler. *)
Definition round : list component :=
  [CGateway; CEntitiesSource; CMetricsSource; CAutomationExecutor; CAuditor].

(** The tasks can all return at their next step: their contexts are done
    and their behaviours honour cancellation. *)
Definition all_cancelled (st : State) : Prop :=
  Forall (fun t => Done (fired st) (ctx t) = true ∧ honours_cancellation (run t))
    (tasks st).

(** Every task of [c] has returned. *)
Definition done_of (c : component) (st : State) : Prop :=
  ∀ t, t ∈ tasks st → who t = c → is_Some (result t).

(** The root cancel function [n] is still in the agent's handle, or it has
    been called. *)
Definition root_tracked (n : CancelFunc) (st : State) : Prop :=
  cancelAll (self st) = Some n ∨ n ∈ fired st.

(** ** package main: the configuration of the Kubernetes client

    [getKRestConfig] reads the argument map that docopt returns, a
    [map[string]interface{}].  A missing key reads as the nil interface; a
    type assertion [v.(T)] panics when [v] is not a [T], and its two-value
    form [s, ok := v.(string)] gives the zero value and [false] instead.

    What the function gets from outside is taken as it comes, in [Env]:
    [rest.InClusterConfig], [os.Getenv], the error of [cert.NewPool] and
    [utils.MustParseDuration], which may panic.  Of [rest.Config] the
    model has the fields the function assigns. *)

Inductive arg :=
| ArgNil
| ArgBool (b : bool)
| ArgString (s : string)
| ArgStrings (l : list string).

Definition lookup_arg (args : gmap string arg) (key : string) : arg :=
  default ArgNil (args !! key).

Record TLSClientConfig := { Insecure : bool; CAFile : string }.

Record Config := {
  Host : string;
  APIPath : string;
  ContentType : string;
  BearerToken : string;
  TLS : TLSClientConfig;
  Timeout : Duration
}.

(** [rest.Config{}] *)
Definition Config_zero : Config :=
  {| Host := ""; APIPath := ""; ContentType := ""; BearerToken := "";
     TLS := {| Insecure := false; CAFile := "" |}; Timeout := 0%Z |}.

(** [runtime.ContentTypeJSON] *)
Definition ContentTypeJSON : string := "application/json".

Inductive output :=
| LogInfo (msg : string)      (* logger.Info *)
| Printf (msg : string).      (* fmt.Printf *)

(** What a call has written, and its results unless it has panicked. *)
Definition P (A : Type) : Type := list output * option A.

Definition pret {A} (x : A) : P A := ([], Some x).
Definition panic {A} : P A := ([], None).
Definition say (o : output) : P unit := ([o], Some tt).

Definition pbind {A B} (m : P A) (k : A -> P B) : P B :=
  match m with
  | (out, None) => (out, None)
  | (out, Some x) => let (out', r) := k x in (out ++ out', r)
  end.

Notation "x <-- m ;; k" := (pbind m (fun x => k))
  (at level 100, m at next level, right associativity).
Notation "m ;;;; k" := (pbind m (fun _ => k))
  (at level 100, right associativity).

(** [v.(bool)] and [v.(string)] *)
Definition as_bool (v : arg) : P bool :=
  match v with ArgBool b => pret b | _ => panic end.

Definition as_string (v : arg) : P string :=
  match v with ArgString s => pret s | _ => panic end.

(** [s, ok := v.(string)] *)
Definition string_ok (v : arg) : string * bool :=
  match v with ArgString s => (s, true) | _ => (""%string, false) end.

Record Env := {
  InClusterConfig : Config + error;
  Getenv : string -> string;
  NewPool : string -> option error;
  MustParseDuration : gmap string arg -> string -> option Duration
}.

Definition with_Timeout (d : Duration) (c : Config) : Config :=
  {| Host := Host c; APIPath := APIPath c; ContentType := ContentType c;
     BearerToken := BearerToken c; TLS := TLS c; Timeout := d |}.

Definition with_TLS (t : TLSClientConfig) (c : Config) : Config :=
  {| Host := Host c; APIPath := APIPath c; ContentType := ContentType c;
     BearerToken := BearerToken c; TLS := t; Timeout := Timeout c |}.

(** [errors.Wrap(err, msg)] *)
Definition errors_Wrap (err : error) (msg : string) : error :=
  (msg +:+ ": " +:+ err)%string.

(** The results are [(config, err)]; a nil [config] is [None]. *)
Definition getKRestConfig (E : Env) (args : gmap string arg)
    : P (option Config * option error) :=
  incluster <-- as_bool (lookup_arg args "--kube-incluster") ;;
  r <-- (if incluster then
    say (LogInfo "initializing kubernetes incluster config") ;;;;
    match InClusterConfig E with
    | inr err => pret (inr (errors_Wrap err "unable to get incluster config"))
    | inl config => pret (inl config)
    end
  else
    say (LogInfo "initializing kubernetes user-defined config") ;;;;

    let token := (string_ok (lookup_arg args "--kube-token")).1 in
    let token := if decide (token = ""%string) then Getenv E "KUBE_TOKEN" else token in

    host <-- as_string (lookup_arg args "--kube-url") ;;
    let config :=
      {| Host := host; APIPath := "/api"; ContentType := ContentTypeJSON;
         BearerToken := token; TLS := TLS Config_zero; Timeout := 0%Z |} in

    let tlsClientConfig := {| Insecure := false; CAFile := "" |} in
    let (rootCAFile, ok) := string_ok (lookup_arg args "--kube-root-ca-cert") in
    config <-- (if ok then
      match NewPool E rootCAFile with
      | Some err =>
        say (Printf ("Expected to load root CA config from " +:+ rootCAFile
                     +:+ ", but got err: " +:+ err)%string) ;;;;
        pret (with_TLS tlsClientConfig config)
      | None =>
        pret (with_TLS {| Insecure := false; CAFile := rootCAFile |} config)
      end
    else pret config) ;;

    insecure <-- as_bool (lookup_arg args "--kube-insecure") ;;
    pret (inl (if insecure
               then with_TLS {| Insecure := true; CAFile := CAFile (TLS config) |} config
               else config))) ;;
  match r with
  | inr err => pret (None, Some err)
  | inl config =>
    match MustParseDuration E args "--kube-timeout" with
    | None => panic
    | Some d => pret (Some (with_Timeout d config), None)
    end
  end.

(** A sample environment: the in-cluster configuration is what
    [in_cluster] says, KUBE_TOKEN is set to env-token, only the file
    good.pem loads as a pool of certificates, and the timeout parses to
    thirty seconds when it is the string 30s. *)
Definition sample_env (in_cluster : Config + error) : Env :=
  {| InClusterConfig := in_cluster;
     Getenv := fun k => if decide (k = "KUBE_TOKEN"%string) then "env-token"%string
                        else ""%string;
     NewPool := fun f => if decide (f = "good.pem"%string) then None
                         else Some "no certificate"%string;
     MustParseDuration := fun args k =>
       match lookup_arg args k with
       | ArgString "30s" => Some (30 * Second)%Z
       | _ => None
       end |}.

Definition sample_args (incluster : bool) (token ca : arg) : gmap string arg :=
  {[ "--kube-incluster"%string := ArgBool incluster;
     "--kube-url"%string := ArgString "https://10.0.0.1:6443";
     "--kube-token"%string := token;
     "--kube-root-ca-cert"%string := ca;
     "--kube-insecure"%string := ArgBool true;
     "--kube-timeout"%string := ArgString "30s" ]}.

(** ** Theorems *)

(** *** [Start], stage by stage *)

Lemma Start_unfold (during_auth during_wait : list action) (st : State) :
  Start during_auth during_wait st =
    let fr := Start_frame st in
    let st2 := (interleave during_auth (after_setup st)).2 in
    match WaitAuthorization (aGateway (self st)) AuthorizationTimeoutDuration with
    | Some e => (fr, Ret (Some e), deferred (next_cancel st) (authorized (Some e) st2))
    | None =>
      let w := eg_Wait during_wait
                 (launched (self st) (sourcesCtx fr) (authorized None st2)) in
      match w.1 with
      | Ret r => (fr, Ret r, deferred (next_cancel st) w.2)
      | Blocked => (fr, Blocked, w.2)
      end
    end.
Proof.
  destruct st as [[acc cl ag [ms] [es] [ae] [gw wa] [au] em ea chl c1 c2 c3] fd n h ts g tr].
  destruct ea, em;
  lazymatch goal with |- Start _ _ ?s = ?rhs =>
    let R := fresh "R" in
    remember rhs as R eqn:HR;
    cbv -[interleave eg_Wait app union singleton AuthorizationTimeoutDuration];
    lazymatch goal with |- context [interleave during_auth ?X] =>
      replace X with (after_setup s)
        by (cbv -[app]; rewrite <- ?app_assoc; reflexivity)
    end;
    subst R; cbv zeta;
    destruct (interleave during_auth (after_setup s)) as [[] st2]
  end.
  all: cbv -[eg_Wait app union singleton AuthorizationTimeoutDuration].
  all: destruct (wa AuthorizationTimeoutDuration); [reflexivity|].
  all: rewrite <- ?app_assoc; cbn [app].
  all: lazymatch goal with |- context [eg_Wait ?d ?X] =>
         set (W := eg_Wait d X) end.
  all: repeat lazymatch goal with |- context [eg_Wait ?d ?X] =>
         change (eg_Wait d X) with W end.
  all: clearbody W; destruct W as [[r|] st4]; reflexivity.
Qed.

(** *** [evolves] is a preorder kept by every action *)

Lemma who_static (ts : list task) : who <$> ts = fst <$> (static <$> ts).
Proof. by rewrite <- list_fmap_compose. Qed.

Lemma handle_kept_trans (h'' h' h : option CancelFunc) :
  handle_kept h'' h' → handle_kept h' h → handle_kept h'' h.
Proof. unfold handle_kept. intros [->| ->] [->| ->]; auto. Qed.

Lemma handle_kept_opt_set (h' h : option CancelFunc) :
  handle_kept h' h → opt_set h' ⊆ opt_set h.
Proof. intros [->| ->]; set_solver. Qed.

Lemma evolves_refl (st : State) : evolves st st.
Proof.
  split; try reflexivity; try (by right).
  - apply union_subseteq_l.
  - exists []. by rewrite app_nil_r.
Qed.

Lemma evolves_stoppable (st st' : State) :
  evolves st st' → stoppable st' ⊆ stoppable st.
Proof.
  intros H. unfold stoppable. rewrite (ev_group _ _ H).
  pose proof (handle_kept_opt_set _ _ (ev_cancelAll _ _ H)).
  pose proof (handle_kept_opt_set _ _ (ev_cancelSources _ _ H)).
  pose proof (handle_kept_opt_set _ _ (ev_cancelSinks _ _ H)).
  set_solver.
Qed.

Lemma evolves_trans (st1 st2 st3 : State) :
  evolves st1 st2 → evolves st2 st3 → evolves st1 st3.
Proof.
  intros H12 H23.
  pose proof (evolves_stoppable _ _ H12) as Hs.
  destruct H12 as [c1 a1 b1 d1 m1 f1 n1 h1 s1 g1 (e1 & t1 & F1)].
  destruct H23 as [c2 a2 b2 d2 m2 f2 n2 h2 s2 g2 (e2 & t2 & F2)].
  split.
  - congruence.
  - eauto using handle_kept_trans.
  - eauto using handle_kept_trans.
  - eauto using handle_kept_trans.
  - by transitivity (fired st2).
  - clear -f1 f2 Hs. set_solver.
  - congruence.
  - congruence.
  - congruence.
  - congruence.
  - exists (e1 ++ e2). split.
    + by rewrite t2, t1, app_assoc.
    + apply Forall_app. split; [done|].
      by rewrite who_static, <- s1, <- who_static.
Qed.

Lemma evolves_cancel (st : State) (f : CancelFunc) :
  f ∈ stoppable st → evolves st (set_fired (fun s => {[f]} ∪ s) st).
Proof.
  intros Hf. split; cbn; try reflexivity; try (by right).
  - apply union_subseteq_r.
  - clear -Hf. set_solver.
  - exists []. by rewrite app_nil_r.
Qed.

Lemma evolves_Stop (st : State) : evolves st (Stop st).2.
Proof.
  unfold Stop, bind, get, call_cancel, modify, ret.
  destruct (cancelAll (self st)) as [f|] eqn:Hf; cbn; [|apply evolves_refl].
  split; cbn; try reflexivity; try (by right); try (by left).
  - apply union_subseteq_r.
  - unfold stoppable. rewrite Hf. cbn. clear. set_solver.
  - exists []. by rewrite app_nil_r.
Qed.

Lemma evolves_stopSources (st : State) : evolves st (stopSources st).2.
Proof.
  unfold stopSources, bind, get, call_cancel, modify, ret.
  destruct (cancelSources (self st)) as [f|] eqn:Hf; cbn; [|apply evolves_refl].
  split; cbn; try reflexivity; try (by right); try (by left).
  - apply union_subseteq_r.
  - unfold stoppable. rewrite Hf. cbn. clear. set_solver.
  - exists []. by rewrite app_nil_r.
Qed.

Lemma evolves_stopSinks (st : State) : evolves st (stopSinks st).2.
Proof.
  unfold stopSinks, bind, get, call_cancel, modify, ret.
  destruct (cancelSinks (self st)) as [f|] eqn:Hf; cbn; [|apply evolves_refl].
  split; cbn; try reflexivity; try (by right); try (by left).
  - apply union_subseteq_r.
  - unfold stoppable. rewrite Hf. cbn. clear. set_solver.
  - exists []. by rewrite app_nil_r.
Qed.

Lemma static_insert_stepped (ts : list task) (i : nat) (t : task)
    (r : option (option error)) :
  ts !! i = Some t → static <$> <[i := stepped t r]> ts = static <$> ts.
Proof.
  intros Hi. rewrite list_fmap_insert.
  apply list_insert_id. by rewrite list_lookup_fmap, Hi.
Qed.

Lemma live_task_known (c : component) (ts : list task) (i : nat) (t : task) :
  list_find (is_live c) ts = Some (i, t) →
  ts !! i = Some t ∧ who t = c ∧ result t = None ∧ c ∈ who <$> ts.
Proof.
  intros (Hi & [Hw Hr] & _)%list_find_Some. repeat split; try done.
  apply list_elem_of_fmap. exists t. split; [done|].
  by apply list_elem_of_lookup_2 in Hi.
Qed.

Lemma evolves_eg_returned (st : State) (r : option error) :
  evolves st (eg_returned r st).2.
Proof.
  unfold eg_returned, bind, get, call_cancel, modify, ret.
  destruct r as [e|]; [|apply evolves_refl].
  destruct (g_err (eg st)); [apply evolves_refl|].
  destruct (g_cancel (eg st)) as [f|] eqn:Hf; cbn.
  - split; cbn; try reflexivity; try (by right); try done.
    + apply union_subseteq_r.
    + unfold stoppable. rewrite Hf. cbn. clear. set_solver.
    + exists []. by rewrite app_nil_r.
  - split; cbn; try reflexivity; try (by right); try done.
    + apply union_subseteq_l.
    + exists []. by rewrite app_nil_r.
Qed.

Lemma evolves_tick (c : component) (st : State) : evolves st (tick c st).2.
Proof.
  unfold tick, bind, get.
  destruct (list_find (is_live c) (tasks st)) as [[i t]|] eqn:Hfind;
    [|apply evolves_refl].
  apply live_task_known in Hfind as (Hi & Hw & Hr & Hc).
  set (inv := if decide (steps t = 0) then [Invoked c (ctx t)] else []).
  assert (Hinv : Forall (task_event (who <$> tasks st)) inv).
  { unfold inv. case_decide; repeat constructor. done. }
  destruct ((if decide (steps t = 0) then emit (Invoked c (ctx t)) else ret ()) st)
    as [[] st1] eqn:E1.
  assert (st1 = set_trace (fun tr => tr ++ inv) st) as ->.
  { revert E1. unfold inv, emit, modify, ret. case_decide; intros [= <-]; [done|].
    destruct st; unfold set_trace; cbn. by rewrite app_nil_r. }
  clear E1.
  destruct (run t (steps t) (Done (fired st) (ctx t))) as [r|].
  - unfold modify, emit, modify. cbn.
    eapply evolves_trans; [|apply evolves_eg_returned].
    split; cbn; try reflexivity; try (by right).
    + apply union_subseteq_l.
    + by apply static_insert_stepped.
    + exists (inv ++ [Returned c r]). split; [by rewrite app_assoc|].
      apply Forall_app. split; [done|]. repeat constructor. done.
  - unfold modify. cbn.
    split; cbn; try reflexivity; try (by right).
    + apply union_subseteq_l.
    + by apply static_insert_stepped.
    + by exists inv.
Qed.

Lemma evolves_perform (x : action) (st : State) : evolves st (perform x st).2.
Proof.
  destruct x; cbn [perform]; unfold bind, ret.
  - apply evolves_tick.
  - pose proof (evolves_Stop st). by destruct (Stop st).
  - pose proof (evolves_stopSources st). by destruct (stopSources st).
  - pose proof (evolves_stopSinks st). by destruct (stopSinks st).
Qed.

Lemma evolves_interleave (sched : list action) (st : State) :
  evolves st (interleave sched st).2.
Proof.
  revert st. induction sched as [|x sched IH]; intros st; cbn [interleave].
  - apply evolves_refl.
  - unfold bind. pose proof (evolves_perform x st) as Hx.
    destruct (perform x st) as [[] st1]. cbn in Hx.
    eapply evolves_trans; [exact Hx|apply IH].
Qed.

Lemma evolves_eg_Wait (sched : list action) (st : State) :
  evolves st (eg_Wait sched st).2.
Proof.
  revert st. induction sched as [|x sched IH]; intros st; cbn [eg_Wait];
    unfold bind, get, ret, call_cancel, modify.
  - destruct (forallb has_returned (tasks st)); [|apply evolves_refl].
    destruct (g_cancel (eg st)) as [f|] eqn:Hf; cbn; [|apply evolves_refl].
    apply evolves_cancel. unfold stoppable. rewrite Hf. cbn. clear. set_solver.
  - destruct (forallb has_returned (tasks st)).
    + destruct (g_cancel (eg st)) as [f|] eqn:Hf; cbn; [|apply evolves_refl].
      apply evolves_cancel. unfold stoppable. rewrite Hf. cbn. clear. set_solver.
    + pose proof (evolves_perform x st) as Hx.
      destruct (perform x st) as [[] st1]. cbn in Hx.
      eapply evolves_trans; [exact Hx|apply IH].
Qed.

(** *** The log-level handler *)

(** C8: [ConfigureGlobalLogger], and the log-level handler that [main]
    builds from it, succeed exactly for the level names info, debug, warn
    and error, and then the logger has the corresponding severity on the
    given sink; for every other name they return the unsupported-level
    error and leave the logger as it was. *)
Theorem ConfigureGlobalLogger_levels (acc cl : UUID) (sink : WriteSyncer)
    (lg : Logger) (level : string) :
  let out := ConfigureGlobalLogger acc cl level sink lg in
  (out.1 = None ↔
     level ∈ ["info"%string; "debug"%string; "warn"%string; "error"%string]) ∧
  (∀ sev, (level, sev) ∈ [("info"%string, InfoLevel); ("debug"%string, DebugLevel);
                          ("warn"%string, WarnLevel); ("error"%string, ErrorLevel)] →
     out.1 = None ∧ logger_level out.2 = sev ∧ logger_sink out.2 = sink) ∧
  (level ∉ ["info"%string; "debug"%string; "warn"%string; "error"%string] →
     out = (Some ("unsupported log level " +:+ level)%string, lg)) ∧
  logLevelHandler acc cl sink {| Level := level |} lg = out.
Proof.
  cbv zeta. unfold logLevelHandler, ConfigureGlobalLogger. cbn [Level].
  split; [|split; [|split; [|reflexivity]]].
  - split.
    + repeat case_decide; subst; cbn; intros Hout; try discriminate;
        repeat constructor.
    + intros Hl. repeat case_decide; try done.
      apply list_elem_of_In in Hl. cbn in Hl. intuition congruence.
  - intros sev Hl. apply list_elem_of_In in Hl. cbn in Hl.
    destruct Hl as [Hl|[Hl|[Hl|[Hl|[]]]]]; simplify_eq; by vm_compute.
  - intros Hl. repeat case_decide; subst; try done;
      exfalso; apply Hl; repeat constructor.
Qed.

(** A request for debug succeeds and sets the severity to debug; a request
    for verbose fails and changes nothing. *)
Example log_level_debug_verbose :
  let lg := {| logger_level := WarnLevel; logger_sink := 1; logger_global := [] |} in
  let handler := logLevelHandler 7%N 8%N 1 in
  (handler {| Level := "debug" |} lg).1 = None ∧
  logger_level (handler {| Level := "debug" |} lg).2 = DebugLevel ∧
  handler {| Level := "verbose" |} lg
    = (Some "unsupported log level verbose"%string, lg).
Proof. cbv zeta. repeat split. Qed.

(** *** Stop, stopSources, stopSinks *)

Lemma iter_fixed {A} (f : A → A) (x : A) (n : nat) :
  f (f x) = f x → Nat.iter (S n) f x = f x.
Proof.
  intros Hf. induction n as [|n IH]; [done|].
  change (Nat.iter (S (S n)) f x) with (f (Nat.iter (S n) f x)).
  by rewrite IH.
Qed.

(** C7: each of [Stop], [stopSources] and [stopSinks] is a total function
    that always returns nil.  With a nil handle (before [Start], or after
    an earlier call) it leaves the state as it is; otherwise it fires the
    handle's cancel function and resets the handle to nil, so that every
    further call changes nothing. *)
Theorem stop_operations_idempotent (st : State) :
  stops_once Stop cancelAll (with_cancelAll None) st ∧
  stops_once stopSources cancelSources (with_cancelSources None) st ∧
  stops_once stopSinks cancelSinks (with_cancelSinks None) st.
Proof.
  split; [|split].
  - assert (Hagain : Stop (Stop st).2 = (None, (Stop st).2)).
    { unfold Stop, bind, get, call_cancel, modify, ret.
      destruct (cancelAll (self st)) eqn:E; cbn; [done|]. by rewrite E. }
    split; [|split; [|split]]; [| |done|].
    + unfold Stop, bind, get. by destruct (cancelAll (self st)).
    + unfold Stop, bind, get, call_cancel, modify, ret.
      destruct (cancelAll (self st)); cbn; [|done].
      repeat split. apply elem_of_union_l. by apply elem_of_singleton.
    + intros n. apply (iter_fixed (fun s => (Stop s).2)). by rewrite Hagain.
  - assert (Hagain : stopSources (stopSources st).2 = (None, (stopSources st).2)).
    { unfold stopSources, bind, get, call_cancel, modify, ret.
      destruct (cancelSources (self st)) eqn:E; cbn; [done|]. by rewrite E. }
    split; [|split; [|split]]; [| |done|].
    + unfold stopSources, bind, get. by destruct (cancelSources (self st)).
    + unfold stopSources, bind, get, call_cancel, modify, ret.
      destruct (cancelSources (self st)); cbn; [|done].
      repeat split. apply elem_of_union_l. by apply elem_of_singleton.
    + intros n. apply (iter_fixed (fun s => (stopSources s).2)). by rewrite Hagain.
  - assert (Hagain : stopSinks (stopSinks st).2 = (None, (stopSinks st).2)).
    { unfold stopSinks, bind, get, call_cancel, modify, ret.
      destruct (cancelSinks (self st)) eqn:E; cbn; [done|]. by rewrite E. }
    split; [|split; [|split]]; [| |done|].
    + unfold stopSinks, bind, get. by destruct (cancelSinks (self st)).
    + unfold stopSinks, bind, get, call_cancel, modify, ret.
      destruct (cancelSinks (self st)); cbn; [|done].
      repeat split. apply elem_of_union_l. by apply elem_of_singleton.
    + intros n. apply (iter_fixed (fun s => (stopSinks s).2)). by rewrite Hagain.
Qed.

(** Before [Start] the handles are nil and stopping does nothing. *)
Example Stop_before_Start (ms : MetricsSource) (es : EntitiesSource)
    (ae : AutomationExecutor) (gw : Gateway) (h : option ChangeLogLevelHandler)
    (au : Auditor) (em ea : bool) :
  let st := boot (New ms es ae gw h au em ea) in
  Stop st = (None, st) ∧ stopSources st = (None, st) ∧ stopSinks st = (None, st).
Proof. done. Qed.

(** *** What [eg.Wait] and [Start] return *)

Lemma eg_Wait_outcome (sched : list action) (st : State) :
  match (eg_Wait sched st).1 with
  | Ret r => forallb has_returned (tasks (eg_Wait sched st).2) = true ∧
             r = g_err (eg (eg_Wait sched st).2)
  | Blocked => forallb has_returned (tasks (eg_Wait sched st).2) = false
  end.
Proof.
  revert st. induction sched as [|x sched IH]; intros st; cbn [eg_Wait];
    unfold bind, get, ret, call_cancel, modify.
  - destruct (forallb has_returned (tasks st)) eqn:E; [|done].
    by destruct (g_cancel (eg st)).
  - destruct (forallb has_returned (tasks st)) eqn:E.
    + by destruct (g_cancel (eg st)).
    + destruct (perform x st) as [[] st1]. apply IH.
Qed.

Lemma Start_stages (during_auth during_wait : list action) (st : State) :
  let fr := Start_frame st in
  ∃ st2, evolves (after_setup st) st2 ∧
    match WaitAuthorization (aGateway (self st)) AuthorizationTimeoutDuration with
    | Some e =>
      Start during_auth during_wait st
        = (fr, Ret (Some e), deferred (next_cancel st) (authorized (Some e) st2))
    | None =>
      ∃ st4, evolves (launched (self st) (sourcesCtx fr) (authorized None st2)) st4 ∧
        ((Start during_auth during_wait st = (fr, Blocked, st4) ∧
          forallb has_returned (tasks st4) = false) ∨
         (Start during_auth during_wait st
            = (fr, Ret (g_err (eg st4)), deferred (next_cancel st) st4) ∧
          forallb has_returned (tasks st4) = true))
    end.
Proof.
  cbv zeta. rewrite Start_unfold. cbv zeta.
  exists (interleave during_auth (after_setup st)).2.
  split; [apply evolves_interleave|].
  destruct (WaitAuthorization _ _) as [e|]; [done|].
  set (st3 := launched _ _ _).
  exists (eg_Wait during_wait st3).2. split; [apply evolves_eg_Wait|].
  pose proof (eg_Wait_outcome during_wait st3) as Hw.
  destruct (eg_Wait during_wait st3).1 as [r|].
  - right. destruct Hw as [Hall ->]. done.
  - by left.
Qed.

(** Cancelling a context cancels the contexts derived from it. *)
Lemma Done_child (fd : gset CancelFunc) (f : CancelFunc) (parent : Context) :
  Done fd parent = true → Done fd (WithCancelCtx f parent) = true.
Proof. cbn. intros ->. apply orb_true_r. Qed.

Lemma Done_fired (fd : gset CancelFunc) (f : CancelFunc) (parent : Context) :
  f ∈ fd → Done fd (WithCancelCtx f parent) = true.
Proof. cbn. intros H. by rewrite bool_decide_eq_true_2. Qed.

Lemma Done_mono (fd fd' : gset CancelFunc) (cx : Context) :
  fd ⊆ fd' → Done fd cx = true → Done fd' cx = true.
Proof.
  intros Hsub. induction cx as [|f parent IH]; cbn; [done|].
  intros [H|H]%orb_true_iff; apply orb_true_iff.
  - left. apply bool_decide_eq_true. apply bool_decide_eq_true in H. by apply Hsub.
  - right. by apply IH.
Qed.

(** Cancellation is one-shot: a context that is done stays done, whatever
    the tasks and the stop operations do next. *)
Lemma Done_stays (st st' : State) (cx : Context) :
  evolves st st' → Done (fired st) cx = true → Done (fired st') cx = true.
Proof. intros H. apply Done_mono, (ev_fired_mono _ _ H). Qed.

(** *** The deferred cancel *)

(** C10: whenever [Start] returns, whatever the path (authorization
    failure, failure of a task, or all tasks done), the root context is
    cancelled, and with it the sources and the sinks contexts derived from
    it. *)
Theorem Start_returns_cancelled (during_auth during_wait : list action)
    (st st' : State) (fr : locals) (r : option error) :
  Start during_auth during_wait st = (fr, Ret r, st') →
  Done (fired st') (allCtx fr) = true ∧
  Done (fired st') (sourcesCtx fr) = true ∧
  Done (fired st') (sinksCtx fr) = true ∧
  (∃ f1 f2, sourcesCtx fr = WithCancelCtx f1 (allCtx fr) ∧
            sinksCtx fr = WithCancelCtx f2 (allCtx fr)).
Proof.
  intros HS.
  destruct (Start_stages during_auth during_wait st) as (st2 & _ & H).
  assert (fr = Start_frame st ∧ next_cancel st ∈ fired st') as [-> Hn].
  { destruct (WaitAuthorization _ _) as [e|].
    - rewrite HS in H. simplify_eq. split; [done|].
      cbn. apply elem_of_union_l. by apply elem_of_singleton.
    - destruct H as (st4 & _ & [[H _]|[H _]]); rewrite HS in H; [done|].
      simplify_eq. split; [done|].
      cbn. apply elem_of_union_l. by apply elem_of_singleton. }
  assert (Hall : Done (fired st') (allCtx (Start_frame st)) = true).
  { by apply Done_fired. }
  repeat split; [done|by apply Done_child|by apply Done_child|].
  by eexists _, _.
Qed.

Lemma Start_returns_cancelled_witness :
  let run := Start [] [Tick CEntitiesSource; CallStop; Tick CGateway; Tick CAuditor]
               (boot (sample_agent (sample_gateway None)
                        (returns_at_once (Some "boom"%string)) false false)) in
  run.1.2 = Ret (Some "boom"%string) ∧
  Done (fired run.2) (allCtx run.1.1) = true ∧
  Done (fired run.2) (sourcesCtx run.1.1) = true ∧
  Done (fired run.2) (sinksCtx run.1.1) = true.
Proof.
  cbv zeta. split; [by vm_compute|].
  match goal with |- context [Start ?s1 ?s2 ?st] =>
    destruct (Start_returns_cancelled s1 s2 st (Start s1 s2 st).2
                (Start s1 s2 st).1.1 (Some "boom"%string)) as (H1 & H2 & H3 & _)
  end; [by vm_compute|].
  exact (conj H1 (conj H2 H3)).
Defined.

(** *** The identity of the agent *)

Lemma config_identity (a a' : Agent) : config a' = config a → identity a' = identity a.
Proof.
  destruct a, a'. unfold config, identity. cbn.
  intros Hc. injection Hc. intros. by subst.
Qed.

Lemma Start_config (during_auth during_wait : list action) (st : State) :
  config (self (Start during_auth during_wait st).2) = config (self st).
Proof.
  destruct (Start_stages during_auth during_wait st) as (st2 & H2 & H).
  assert (H0 : config (self (after_setup st)) = config (self st)) by done.
  destruct (WaitAuthorization _ _) as [e|].
  - rewrite H. cbn. by rewrite (ev_config _ _ H2).
  - destruct H as (st4 & H4 & [[-> _]|[-> _]]); cbn;
      rewrite (ev_config _ _ H4); cbn; by rewrite (ev_config _ _ H2).
Qed.

(** C9, as the code has it: [New] takes no identifier, so the agent it
    returns has the zero UUID in [AccountID], [ClusterID] and [AgentID]
    whatever it is given; and none of [Start], [Stop], [stopSources] and
    [stopSinks] changes these fields, under any schedule. *)
Theorem identity_zero_and_kept (ms : MetricsSource) (es : EntitiesSource)
    (ae : AutomationExecutor) (gw : Gateway) (h : option ChangeLogLevelHandler)
    (au : Auditor) (em ea : bool) (during_auth during_wait : list action) (st : State) :
  identity (New ms es ae gw h au em ea) = (uuid_zero, uuid_zero, uuid_zero) ∧
  identity (self (Start during_auth during_wait st).2) = identity (self st) ∧
  identity (self (Stop st).2) = identity (self st) ∧
  identity (self (stopSources st).2) = identity (self st) ∧
  identity (self (stopSinks st).2) = identity (self st).
Proof.
  split; [done|]. repeat split; apply config_identity.
  - apply Start_config.
  - apply (ev_config _ _ (evolves_Stop st)).
  - apply (ev_config _ _ (evolves_stopSources st)).
  - apply (ev_config _ _ (evolves_stopSinks st)).
Qed.

(** C9, as stated, fails: [main] knows the account 7 and the cluster 8 and
    builds the log-level handler from them, yet the agent it constructs
    carries neither. *)
Lemma identity_not_supplied :
  let a := New {| MetricsSource_Start := until_cancelled None |}
               {| EntitiesSource_Start := until_cancelled None |}
               {| AutomationExecutor_Start := until_cancelled None |}
               (sample_gateway None)
               (Some (logLevelHandler 7%N 8%N 1))
               {| Auditor_Start := until_cancelled None |}
               true true in
  AccountID a = 0%N ∧ AccountID a ≠ 7%N ∧ ClusterID a = 0%N ∧ ClusterID a ≠ 8%N.
Proof. cbv zeta. cbn. repeat split; discriminate. Qed.

(** *** The shape of a run of [Start] *)

Lemma evolves_who (st st' : State) :
  evolves st st' → who <$> tasks st' = who <$> tasks st.
Proof. intros H. by rewrite !who_static, (ev_static _ _ H). Qed.

(** The tasks, the handlers and the trace [Start] leaves, whether it has
    returned or is still blocked in [eg.Wait]: the registrations, the
    launch of the Gateway, what the Gateway did during the authorization,
    the answer of the gate, and then, only if the answer was nil, the
    launches of the sources and what the tasks did. *)
Lemma Start_shape (during_auth during_wait : list action) (st : State) :
  let fr := Start_frame st in
  let a := self st in
  let r := WaitAuthorization (aGateway a) AuthorizationTimeoutDuration in
  let st' := (Start during_auth during_wait st).2 in
  let srcs := match r with Some _ => [] | None => sources a (sourcesCtx fr) end in
  (Start during_auth during_wait st).1.1 = fr ∧
  (is_Some r → (Start during_auth during_wait st).1.2 = Ret r) ∧
  handlers st' = handlers (after_setup st) ∧
  static <$> tasks st'
    = (static <$> tasks st) ++ (CGateway, sinksCtx fr) :: (static <$> srcs) ∧
  ∃ evs1 evs2,
    trace st' = trace st ++ ((fun p => Registered p.1 p.2) <$> wiring a)
                         ++ [Spawned CGateway (sinksCtx fr)] ++ evs1
                         ++ [Authorization AuthorizationTimeoutDuration r]
                         ++ ((fun t => Spawned (who t) (ctx t)) <$> srcs) ++ evs2 ∧
    Forall (task_event ((who <$> tasks st) ++ [CGateway])) evs1 ∧
    Forall (task_event ((who <$> tasks st) ++ CGateway :: (who <$> srcs))) evs2 ∧
    (is_Some r → evs2 = []).
Proof.
  cbv zeta.
  destruct (Start_stages during_auth during_wait st) as (st2 & H2 & H).
  pose proof (evolves_who _ _ H2) as Hw2.
  destruct H2 as [_ _ _ _ _ _ _ Hh2 Hs2 _ (evs1 & Ht2 & F1)].
  unfold after_setup in F1, Hs2, Hw2, Ht2, Hh2.
  cbn [tasks trace handlers] in F1, Hs2, Hw2, Ht2, Hh2.
  rewrite fmap_app in F1. rewrite fmap_app in Hs2. rewrite fmap_app in Hw2.
  cbn [fmap list_fmap new_task who] in F1, Hw2.
  change (static <$> [new_task CGateway (Gateway_Start (aGateway (self st)))
                        (sinksCtx (Start_frame st))])
    with [(CGateway, sinksCtx (Start_frame st))] in Hs2.
  destruct (WaitAuthorization _ _) as [e|].
  - rewrite H. cbn. split; [done|]. split; [done|]. split; [done|].
    split; [done|].
    exists evs1, []. rewrite Ht2. cbn.
    split; [by rewrite <- !app_assoc|]. split; [done|]. split; [constructor|done].
  - destruct H as (st4 & H4 & H).
    pose proof (evolves_who _ _ H4) as Hw4.
    destruct H4 as [_ _ _ _ _ _ _ Hh4 Hs4 _ (evs2 & Ht4 & F2)].
    cbn [launched authorized tasks set_trace set_tasks trace handlers] in *.
    rewrite fmap_app in F2. rewrite fmap_app in Hs4. rewrite fmap_app in Hw4.
    rewrite Hw2 in F2. rewrite Hs2 in Hs4.
    assert (Hst : (Start during_auth during_wait st).1.1 = Start_frame st ∧
                  tasks (Start during_auth during_wait st).2 = tasks st4 ∧
                  handlers (Start during_auth during_wait st).2 = handlers st4 ∧
                  trace (Start during_auth during_wait st).2 = trace st4).
    { by destruct H as [[-> _]|[-> _]]. }
    destruct Hst as (E1 & E2 & E3 & E4). rewrite E1, E2, E3, E4.
    split; [done|]. split; [by intros []|].
    split; [etransitivity; [exact Hh4|exact Hh2]|].
    split; [rewrite Hs4; by rewrite <- app_assoc|].
    exists evs1, evs2. rewrite Ht4, Ht2. cbn.
    split; [by rewrite <- !app_assoc|]. split; [done|].
    split; [by rewrite <- app_assoc in F2|by intros []].
Qed.

(** *** The authorization gate *)

(** The two hours of the timeout, in nanoseconds. *)
Lemma AuthorizationTimeoutDuration_two_hours :
  AuthorizationTimeoutDuration = (2 * 60 * 60 * 1000000000)%Z.
Proof. reflexivity. Qed.

(** C2: every run of [Start] waits for the authorization with the timeout
    of two hours; when the gate answers with an error [Start] returns that
    error, the Gateway's task is the only one launched, and no schedule
    ever launches or invokes the [Start] of another collaborator
    afterwards. *)
Theorem authorization_failure_launches_no_source (a : Agent)
    (during_auth during_wait afterwards : list action) :
  let r := WaitAuthorization (aGateway a) AuthorizationTimeoutDuration in
  let run := Start during_auth during_wait (boot a) in
  let st' := (interleave afterwards run.2).2 in
  AuthorizationTimeoutDuration = (2 * Hour)%Z ∧
  Hour = (60 * 60 * 1000000000)%Z ∧
  Authorization AuthorizationTimeoutDuration r ∈ trace run.2 ∧
  ∀ e, r = Some e →
    run.1.2 = Ret (Some e) ∧
    who <$> tasks st' = [CGateway] ∧
    ∀ c cx, Spawned c cx ∈ trace st' ∨ Invoked c cx ∈ trace st' → c = CGateway.
Proof.
  cbv zeta.
  destruct (Start_shape during_auth during_wait (boot a))
    as (_ & Hret & _ & Hst & evs1 & evs2 & Htr & F1 & _ & Hnil).
  cbn [boot self tasks trace] in Hret, Hst, Htr, F1, Hnil.
  split; [done|]. split; [done|]. split; [rewrite Htr; set_solver|].
  intros e Hauth.
  rewrite Hauth in Hret, Hst, Htr, Hnil.
  rewrite (Hnil (mk_is_Some _ _ eq_refl)) in Htr. clear Hnil.
  cbn [fmap list_fmap app] in Hst, Htr, F1. rewrite ?app_nil_r in Htr.
  pose proof (evolves_interleave afterwards
                (Start during_auth during_wait (boot a)).2) as Hev.
  pose proof (evolves_who _ _ Hev) as Hw.
  destruct Hev as [_ _ _ _ _ _ _ _ _ _ (evs3 & Ht3 & F3)].
  assert (Hwho : who <$> tasks (Start during_auth during_wait (boot a)).2
                 = [CGateway]).
  { by rewrite who_static, Hst. }
  rewrite Hwho in Hw, F3.
  split; [by apply Hret|]. split; [done|].
  assert (Hall : Forall (fun ev => match ev with
                                   | Spawned c _ | Invoked c _ => c = CGateway
                                   | _ => True
                                   end)
                   (trace (interleave afterwards
                             (Start during_auth during_wait (boot a)).2).2)).
  { assert (Hte : ∀ evs, Forall (task_event [CGateway]) evs →
             Forall (fun ev => match ev with
                               | Spawned c _ | Invoked c _ => c = CGateway
                               | _ => True
                               end) evs).
    { intros evs Hevs. eapply Forall_impl; [exact Hevs|].
      intros [] Hev; try done; unfold task_event in Hev;
        by apply list_elem_of_singleton in Hev. }
    rewrite Ht3, Htr. apply Forall_app. split; [|by apply Hte].
    apply Forall_app. split.
    { apply Forall_fmap. by apply Forall_true. }
    apply Forall_cons. split; [done|].
    apply Forall_app. split; [by apply Hte|].
    by apply Forall_singleton. }
  intros c cx [Hin|Hin]; by apply (proj1 (Forall_forall _ _) Hall) in Hin.
Qed.

Lemma authorization_failure_launches_no_source_witness :
  let a := sample_agent (sample_gateway (Some "unauthorized"%string))
             (until_cancelled None) true true in
  let run := Start [Tick CGateway] [] (boot a) in
  let st' := (interleave [Tick CEntitiesSource; Tick CGateway] run.2).2 in
  run.1.2 = Ret (Some "unauthorized"%string) ∧
  who <$> tasks st' = [CGateway] ∧
  ∀ c cx, Spawned c cx ∈ trace st' ∨ Invoked c cx ∈ trace st' → c = CGateway.
Proof.
  exact (proj2 (proj2 (proj2
           (authorization_failure_launches_no_source
              (sample_agent (sample_gateway (Some "unauthorized"%string))
                 (until_cancelled None) true true)
              [Tick CGateway] [] [Tick CEntitiesSource; Tick CGateway])))
           "unauthorized"%string eq_refl).
Defined.

(** C4, as the code has it: when the gate answers with an error, [Start]
    returns that error at once, without waiting for the Gateway's task:
    nothing of the schedule after the authorization is consumed, and the
    task is left where the authorization left it.  The deferred cancel has
    fired the root context when [Start] returns, so the context of the
    Gateway's task is done by then. *)
Theorem authorization_failure_returns_at_once (st : State)
    (during_auth during_wait : list action) (e : error) :
  WaitAuthorization (aGateway (self st)) AuthorizationTimeoutDuration = Some e →
  let run := Start during_auth during_wait st in
  run.1.2 = Ret (Some e) ∧
  Done (fired run.2) (allCtx run.1.1) = true ∧
  Done (fired run.2) (sinksCtx run.1.1) = true ∧
  Spawned CGateway (sinksCtx run.1.1) ∈ trace run.2 ∧
  tasks run.2 = tasks (interleave during_auth (after_setup st)).2 ∧
  ∀ during_wait', Start during_auth during_wait' st = run.
Proof.
  intros Hauth. cbv zeta.
  assert (Hrun : ∀ w, Start during_auth w st
                 = (Start_frame st, Ret (Some e),
                    deferred (next_cancel st)
                      (authorized (Some e) (interleave during_auth (after_setup st)).2))).
  { intros w. rewrite Start_unfold. cbv zeta. by rewrite Hauth. }
  rewrite (Hrun during_wait). cbn [fst snd].
  assert (Hall : Done (fired (deferred (next_cancel st)
                    (authorized (Some e) (interleave during_auth (after_setup st)).2)))
                   (allCtx (Start_frame st)) = true).
  { apply Done_fired. cbn. apply elem_of_union_l. by apply elem_of_singleton. }
  split; [done|]. split; [done|]. split; [by apply Done_child|].
  split; [|split; [done|apply Hrun]].
  cbn [deferred authorized set_fired set_trace trace].
  destruct (ev_trace _ _ (evolves_interleave during_auth (after_setup st)))
    as (evs & -> & _).
  cbn [after_setup trace]. set_solver.
Qed.

Lemma authorization_failure_returns_at_once_witness :
  let st := boot (sample_agent (sample_gateway (Some "unauthorized"%string))
                    (until_cancelled None) true true) in
  let run := Start [Tick CGateway] [Tick CGateway] st in
  run.1.2 = Ret (Some "unauthorized"%string) ∧
  Done (fired run.2) (allCtx run.1.1) = true ∧
  Done (fired run.2) (sinksCtx run.1.1) = true ∧
  Spawned CGateway (sinksCtx run.1.1) ∈ trace run.2 ∧
  tasks run.2 = tasks (interleave [Tick CGateway] (after_setup st)).2 ∧
  ∀ during_wait', Start [Tick CGateway] during_wait' st = run.
Proof.
  exact (authorization_failure_returns_at_once
           (boot (sample_agent (sample_gateway (Some "unauthorized"%string))
                    (until_cancelled None) true true))
           [Tick CGateway] [Tick CGateway] "unauthorized"%string eq_refl).
Defined.

(** C4, as stated, fails: here the gate rejects the agent while the
    Gateway's transport is running; [Start] returns the error and the
    Gateway's task has not returned.  It returns at its next step. *)
Lemma Start_does_not_wait_for_the_gateway :
  let st := boot (sample_agent (sample_gateway (Some "unauthorized"%string))
                    (until_cancelled None) true true) in
  let run := Start [Tick CGateway] [Tick CGateway] st in
  run.1.2 = Ret (Some "unauthorized"%string) ∧
  (fun t => (who t, result t)) <$> tasks run.2 = [(CGateway, None)] ∧
  (fun t => (who t, result t)) <$> tasks (interleave [Tick CGateway] run.2).2
    = [(CGateway, Some None)].
Proof. cbv zeta. by vm_compute. Qed.

(** *** What an authorized [Start] launches and wires *)

(** C5: when the authorization succeeds, the tasks of the group are the
    Gateway's, on the sinks context, and on the sources context exactly
    the entities source and the auditor, the metrics source if and only if
    [EnableMetrics], and the automation executor if and only if
    [EnableAutomation]; the metrics handler is registered if and only if
    [EnableMetrics], the two automation handlers if and only if
    [EnableAutomation]. *)
Theorem authorized_start_launches_enabled_sources (a : Agent)
    (during_auth during_wait : list action) :
  WaitAuthorization (aGateway a) AuthorizationTimeoutDuration = None →
  let run := Start during_auth during_wait (boot a) in
  let fr := run.1.1 in
  let st' := run.2 in
  static <$> tasks st'
    = (CGateway, sinksCtx fr) :: (CEntitiesSource, sourcesCtx fr) ::
      (if EnableMetrics a then [(CMetricsSource, sourcesCtx fr)] else []) ++
      (if EnableAutomation a then [(CAutomationExecutor, sourcesCtx fr)] else []) ++
      [(CAuditor, sourcesCtx fr)] ∧
  sinksCtx fr ≠ sourcesCtx fr ∧
  (∀ c, (c, sourcesCtx fr) ∈ static <$> tasks st' ↔
          c = CEntitiesSource ∨ c = CAuditor ∨
          (c = CMetricsSource ∧ EnableMetrics a = true) ∨
          (c = CAutomationExecutor ∧ EnableAutomation a = true)) ∧
  handlers st' SetMetricsHandler
    = (if EnableMetrics a then Some handleMetrics else None) ∧
  handlers st' SetAutomationHandler
    = (if EnableAutomation a then Some SubmitAutomation else None) ∧
  handlers st' SetAutomationFeedbackHandler
    = (if EnableAutomation a then Some handleAutomationFeedback else None) ∧
  (∀ s cb, Registered s cb ∈ trace st' →
     (s = SetMetricsHandler → EnableMetrics a = true) ∧
     (s = SetAutomationHandler ∨ s = SetAutomationFeedbackHandler →
        EnableAutomation a = true)).
Proof.
  intros Hauth. cbv zeta.
  destruct (Start_shape during_auth during_wait (boot a))
    as (Hfr & _ & Hh & Hst & evs1 & evs2 & Htr & F1 & F2 & _).
  cbn [boot self tasks trace] in Hh, Hst, Htr, F1, F2.
  rewrite Hauth in Hst, Htr, F2. rewrite Hfr, Hh, Hst.
  cbn [fmap list_fmap app] in *.
  assert (Hne : sinksCtx (Start_frame (boot a)) ≠ sourcesCtx (Start_frame (boot a))).
  { by cbn. }
  split; [|split; [done|split; [|split; [|split; [|split]]]]].
  - unfold sources. by destruct (EnableMetrics a), (EnableAutomation a).
  - intros c. unfold sources, static, new_task.
    destruct (EnableMetrics a), (EnableAutomation a); cbn;
      rewrite ?elem_of_cons, ?elem_of_nil;
      (split; [intros Hc; destruct_or?; simplify_eq; auto 6
              |intros Hc; destruct_or?; destruct_and?; simplify_eq; auto 8]).
  - unfold after_setup, wiring. cbn [handlers boot self].
    by destruct (EnableMetrics a), (EnableAutomation a).
  - unfold after_setup, wiring. cbn [handlers boot self].
    by destruct (EnableMetrics a), (EnableAutomation a).
  - unfold after_setup, wiring. cbn [handlers boot self].
    by destruct (EnableMetrics a), (EnableAutomation a).
  - intros s cb Hin.
    assert (Hw : (s, cb) ∈ wiring a).
    { assert (Hte : ∀ cs evs, Forall (task_event cs) evs → Registered s cb ∉ evs).
      { intros cs evs Hevs Hev.
        by apply (proj1 (Forall_forall _ _) Hevs) in Hev. }
      rewrite Htr in Hin.
      apply elem_of_app in Hin as [Hin|Hin].
      { apply list_elem_of_fmap in Hin as ([s' cb'] & Heq & Hin).
        cbn in Heq. by simplify_eq. }
      apply elem_of_cons in Hin as [Hin|Hin]; [done|].
      apply elem_of_app in Hin as [Hin|Hin]; [by eapply Hte in Hin|].
      apply elem_of_cons in Hin as [Hin|Hin]; [done|].
      apply elem_of_app in Hin as [Hin|Hin]; [|by eapply Hte in Hin].
      by apply list_elem_of_fmap in Hin as (t & Heq & _). }
    unfold wiring in Hw.
    destruct (EnableMetrics a), (EnableAutomation a); cbn in Hw;
      rewrite ?elem_of_cons, ?elem_of_nil in Hw;
      split; intros Hs; destruct_or?; simplify_eq; done.
Qed.

Lemma authorized_start_launches_enabled_sources_witness :
  let a := sample_agent (sample_gateway None) (until_cancelled None) true false in
  let run := Start [] [Tick CGateway] (boot a) in
  let fr := run.1.1 in
  let st' := run.2 in
  static <$> tasks st'
    = (CGateway, sinksCtx fr) :: (CEntitiesSource, sourcesCtx fr) ::
      (if EnableMetrics a then [(CMetricsSource, sourcesCtx fr)] else []) ++
      (if EnableAutomation a then [(CAutomationExecutor, sourcesCtx fr)] else []) ++
      [(CAuditor, sourcesCtx fr)] ∧
  sinksCtx fr ≠ sourcesCtx fr ∧
  (∀ c, (c, sourcesCtx fr) ∈ static <$> tasks st' ↔
          c = CEntitiesSource ∨ c = CAuditor ∨
          (c = CMetricsSource ∧ EnableMetrics a = true) ∨
          (c = CAutomationExecutor ∧ EnableAutomation a = true)) ∧
  handlers st' SetMetricsHandler
    = (if EnableMetrics a then Some handleMetrics else None) ∧
  handlers st' SetAutomationHandler
    = (if EnableAutomation a then Some SubmitAutomation else None) ∧
  handlers st' SetAutomationFeedbackHandler
    = (if EnableAutomation a then Some handleAutomationFeedback else None) ∧
  (∀ s cb, Registered s cb ∈ trace st' →
     (s = SetMetricsHandler → EnableMetrics a = true) ∧
     (s = SetAutomationHandler ∨ s = SetAutomationFeedbackHandler →
        EnableAutomation a = true)).
Proof.
  exact (authorized_start_launches_enabled_sources
           (sample_agent (sample_gateway None) (until_cancelled None) true false)
           [] [Tick CGateway] eq_refl).
Defined.

(** *** Order of the events of a run *)

(** In a list [l1 ++ l2] with no [Q] in [l1] and no [P] in [l2], every
    [P] stands before every [Q]. *)
Lemma split_order {A} (P Q : A → Prop) (l1 l2 : list A) (i j : nat) (x y : A) :
  Forall (fun z => ¬ Q z) l1 → Forall (fun z => ¬ P z) l2 →
  (l1 ++ l2) !! i = Some x → (l1 ++ l2) !! j = Some y → P x → Q y → i < j.
Proof.
  intros H1 H2 Hi Hj HP HQ.
  apply lookup_app_Some in Hi as [Hi|[Hle Hi]].
  - apply lookup_app_Some in Hj as [Hj|[Hlj Hj]].
    + apply list_elem_of_lookup_2 in Hj.
      by apply (proj1 (Forall_forall _ _) H1) in Hj.
    + apply lookup_lt_Some in Hi. lia.
  - apply list_elem_of_lookup_2 in Hi.
    by apply (proj1 (Forall_forall _ _) H2) in Hi.
Qed.

(** The trace of a run, however long it is watched: registrations, the
    launch of the Gateway, steps of the Gateway, the answer of the gate,
    and after it no registration, and launches or invocations of sources
    only if the answer was nil. *)
Lemma run_trace_shape (a : Agent) (during_auth during_wait afterwards : list action) :
  let r := WaitAuthorization (aGateway a) AuthorizationTimeoutDuration in
  let run := Start during_auth during_wait (boot a) in
  ∃ evs1 rest,
    trace (interleave afterwards run.2).2
      = ((fun p => Registered p.1 p.2) <$> wiring a)
        ++ Spawned CGateway (sinksCtx run.1.1) :: evs1
        ++ Authorization AuthorizationTimeoutDuration r :: rest ∧
    Forall (task_event [CGateway]) evs1 ∧
    Forall (fun ev => match ev with
                      | Registered _ _ => False
                      | Spawned c _ | Invoked c _ => c = CGateway ∨ r = None
                      | _ => True
                      end) rest.
Proof.
  cbv zeta.
  destruct (Start_shape during_auth during_wait (boot a))
    as (Hfr & _ & _ & Hst & evs1 & evs2 & Htr & F1 & F2 & Hnil).
  cbn [boot self tasks trace fmap list_fmap app] in Hst, Htr, F1, F2, Hnil.
  pose proof (evolves_interleave afterwards
                (Start during_auth during_wait (boot a)).2) as Hev.
  destruct Hev as [_ _ _ _ _ _ _ _ _ _ (evs3 & Ht3 & F3)].
  rewrite who_static, Hst in F3. cbn [fmap list_fmap fst] in F3.
  rewrite <- list_fmap_compose in F3.
  change (fst ∘ static) with who in F3.
  rewrite Hfr, Ht3, Htr.
  exists evs1.
  eexists. split; [by rewrite <- !app_assoc, <- !app_comm_cons, <- !app_assoc|].
  split; [done|].
  assert (Hte : ∀ cs evs, Forall (task_event cs) evs →
            (∀ c, c ∈ cs → c = CGateway
               ∨ WaitAuthorization (aGateway a) AuthorizationTimeoutDuration = None) →
            Forall (fun ev => match ev with
                      | Registered _ _ => False
                      | Spawned c _ | Invoked c _ =>
                        c = CGateway
                        ∨ WaitAuthorization (aGateway a) AuthorizationTimeoutDuration = None
                      | _ => True
                      end) evs).
  { intros cs evs Hevs Hcs. eapply Forall_impl; [exact Hevs|].
    intros [] Hx; try done. by apply Hcs. }
  assert (Hcs : ∀ c, c ∈ CGateway :: (who <$>
                  match WaitAuthorization (aGateway a) AuthorizationTimeoutDuration with
                  | Some _ => []
                  | None => sources a (sourcesCtx (Start_frame (boot a)))
                  end) → c = CGateway
               ∨ WaitAuthorization (aGateway a) AuthorizationTimeoutDuration = None).
  { intros c [->|Hc]%elem_of_cons; [by left|].
    destruct (WaitAuthorization _ _); [|by right].
    by apply elem_of_nil in Hc. }
  repeat apply Forall_app_2; try (by eapply Hte).
  apply Forall_fmap, Forall_forall. intros t Ht. cbn.
  destruct (WaitAuthorization _ _); [|by right]. by apply elem_of_nil in Ht.
Qed.

(** C6: in the trace of every run, watched for as long as one likes, the
    registrations [Start] makes come first and in the order of the code,
    every registration stands before every launch and every invocation of
    a task, and every launch or invocation of a source task has the launch
    of the Gateway's task and then the successful answer of the
    authorization gate before it. *)
Theorem wiring_then_gateway_then_sources (a : Agent)
    (during_auth during_wait afterwards : list action) :
  let run := Start during_auth during_wait (boot a) in
  let tr := trace (interleave afterwards run.2).2 in
  take (length (wiring a)) tr = (fun p => Registered p.1 p.2) <$> wiring a ∧
  (∀ i j s cb c cx,
     tr !! i = Some (Registered s cb) →
     tr !! j = Some (Spawned c cx) ∨ tr !! j = Some (Invoked c cx) →
     i < j) ∧
  (∀ j c cx,
     c ≠ CGateway →
     tr !! j = Some (Spawned c cx) ∨ tr !! j = Some (Invoked c cx) →
     ∃ i k, i < k ∧ k < j ∧
       tr !! i = Some (Spawned CGateway (sinksCtx run.1.1)) ∧
       tr !! k = Some (Authorization AuthorizationTimeoutDuration None)).
Proof.
  cbv zeta.
  destruct (run_trace_shape a during_auth during_wait afterwards)
    as (evs1 & rest & -> & F1 & F2).
  set (W := (fun p => Registered p.1 p.2) <$> wiring a).
  set (G := Spawned CGateway _).
  set (r := WaitAuthorization _ _) in *.
  set (A := Authorization _ r).
  assert (HW : Forall (fun ev => ∃ s cb, ev = Registered s cb) W).
  { apply Forall_fmap, Forall_true. intros [s cb]. by exists s, cb. }
  split; [|split].
  - replace (length (wiring a)) with (length W) by apply length_fmap.
    by rewrite take_app_length.
  - intros i j s cb c cx Hi Hj.
    assert (∃ y, (W ++ G :: evs1 ++ A :: rest) !! j = Some y ∧
                 ∃ c cx, y = Spawned c cx ∨ y = Invoked c cx) as (y & Hy & HQ).
    { destruct Hj as [Hj|Hj]; eexists; (split; [exact Hj|]); exists c, cx; auto. }
    eapply (split_order (fun ev => ∃ s cb, ev = Registered s cb)
              (fun ev => ∃ c cx, ev = Spawned c cx ∨ ev = Invoked c cx)
              W (G :: evs1 ++ A :: rest) i j _ y); [| |exact Hi|exact Hy| |exact HQ].
    + eapply Forall_impl; [exact HW|].
      intros ev (s' & cb' & ->) (c' & cx' & [?|?]); done.
    + apply Forall_cons. split; [by intros (? & ? & ?)|].
      apply Forall_app. split.
      * eapply Forall_impl; [exact F1|]. by intros [] ? (? & ? & ?).
      * apply Forall_cons. split; [by intros (? & ? & ?)|].
        eapply Forall_impl; [exact F2|]. by intros [] ? (? & ? & ?).
    + by exists s, cb.
  - intros j c cx Hc Hj.
    assert (Hpre : Forall (fun ev => ev ≠ Spawned c cx ∧ ev ≠ Invoked c cx)
                     (W ++ G :: evs1)).
    { apply Forall_app. split.
      - eapply Forall_impl; [exact HW|]. by intros ev (? & ? & ->).
      - apply Forall_cons. split; [split; unfold G; congruence|].
        eapply Forall_impl; [exact F1|].
        intros [] Hx; try done; unfold task_event in Hx;
          apply list_elem_of_singleton in Hx; split; congruence. }
    assert (Hj' : ((W ++ G :: evs1) ++ A :: rest) !! j = Some (Spawned c cx)
                ∨ ((W ++ G :: evs1) ++ A :: rest) !! j = Some (Invoked c cx)).
    { by rewrite <- app_assoc, <- app_comm_cons. }
    assert (Hpos : length (W ++ G :: evs1) < j ∧
              ∃ ev, rest !! (j - S (length (W ++ G :: evs1))) = Some ev ∧
                    (ev = Spawned c cx ∨ ev = Invoked c cx)).
    { assert (Hin : ∀ ev, ev = Spawned c cx ∨ ev = Invoked c cx →
                ((W ++ G :: evs1) ++ A :: rest) !! j = Some ev →
                length (W ++ G :: evs1) < j ∧
                rest !! (j - S (length (W ++ G :: evs1))) = Some ev).
      { intros ev Hev Hl. apply lookup_app_Some in Hl as [Hl|[Hle Hl]].
        - apply list_elem_of_lookup_2 in Hl.
          apply (proj1 (Forall_forall _ _) Hpre) in Hl. naive_solver.
        - apply lookup_cons_Some in Hl as [[_ <-]|[Hlt Hl]].
          + unfold A in Hev. naive_solver.
          + split; [lia|]. rewrite <- Hl. f_equal. lia. }
      destruct Hj' as [Hl|Hl]; eapply Hin in Hl as [? ?]; eauto. }
    destruct Hpos as (Hlt & ev & Hrest & Hev).
    assert (Hr : r = None).
    { apply list_elem_of_lookup_2 in Hrest.
      apply (proj1 (Forall_forall _ _) F2) in Hrest.
      destruct Hev as [->| ->]; naive_solver. }
    exists (length W), (length (W ++ G :: evs1)).
    split; [rewrite length_app; cbn; lia|]. split; [done|]. split.
    + by apply list_lookup_middle.
    + replace (W ++ G :: evs1 ++ A :: rest) with ((W ++ G :: evs1) ++ A :: rest)
        by by rewrite <- app_assoc, <- app_comm_cons.
      unfold A. rewrite Hr. by apply list_lookup_middle.
Qed.

(** *** Stopping the sinks *)

Lemma Done_chain (fd : gset CancelFunc) (cx : Context) :
  Done fd cx = true ↔ ∃ f, f ∈ chain cx ∧ f ∈ fd.
Proof.
  induction cx as [|g parent IH]; cbn.
  - split; [done|]. by intros (f & ?%elem_of_nil & _).
  - rewrite orb_true_iff, bool_decide_eq_true, IH. split.
    + intros [Hg|(f & Hf & Hfd)].
      * exists g. split; [apply elem_of_cons; by left|done].
      * exists f. split; [apply elem_of_cons; by right|done].
    + intros (f & [->|Hf]%elem_of_cons & Hfd); [by left|].
      right. by exists f.
Qed.

(** Firing a cancel function leaves the contexts outside its subtree as
    they are. *)
Lemma Done_other (fd : gset CancelFunc) (f : CancelFunc) (cx : Context) :
  f ∉ chain cx → Done ({[f]} ∪ fd) cx = Done fd cx.
Proof.
  intros Hf. apply eq_true_iff_eq. rewrite !Done_chain.
  split; intros (g & Hg & Hfd); exists g; (split; [done|]).
  - apply elem_of_union in Hfd as [->%elem_of_singleton|]; done.
  - by apply elem_of_union_r.
Qed.

(** The handles [Start] stores are the cancel functions of its three
    contexts, until a stop operation resets them. *)
Lemma Start_handles (during_auth during_wait : list action) (st : State) :
  let st' := (Start during_auth during_wait st).2 in
  handle_kept (cancelAll (self st')) (Some (next_cancel st)) ∧
  handle_kept (cancelSources (self st')) (Some (S (next_cancel st))) ∧
  handle_kept (cancelSinks (self st')) (Some (S (S (next_cancel st)))).
Proof.
  cbv zeta.
  destruct (Start_stages during_auth during_wait st) as (st2 & H2 & H).
  destruct H2 as [_ Ha2 Hb2 Hc2 _ _ _ _ _ _ _].
  cbn in Ha2, Hb2, Hc2.
  destruct (WaitAuthorization _ _) as [e|].
  - by rewrite H.
  - destruct H as (st4 & [_ Ha4 Hb4 Hc4 _ _ _ _ _ _ _] & H).
    cbn in Ha4, Hb4, Hc4.
    assert (Hself : self (Start during_auth during_wait st).2 = self st4).
    { by destruct H as [[-> _]|[-> _]]. }
    rewrite Hself.
    split; [|split]; eapply handle_kept_trans; eassumption.
Qed.

(** C3, as the code has it: the Gateway's task is launched on the sinks
    context, a child of the root context.  [stopSinks], called at any
    moment of a run, leaves the root context and the sources context as
    they are, and its first call cancels the sinks context, which is the
    context of the Gateway's task. *)
Theorem stopSinks_cancels_the_gateway_context (a : Agent)
    (during_auth during_wait : list action) :
  let run := Start during_auth during_wait (boot a) in
  let fr := run.1.1 in
  let st := run.2 in
  let st' := (stopSinks st).2 in
  (∃ t, tasks st !! 0 = Some t ∧ who t = CGateway ∧ ctx t = sinksCtx fr) ∧
  Spawned CGateway (sinksCtx fr) ∈ trace st ∧
  (∃ f, sinksCtx fr = WithCancelCtx f (allCtx fr) ∧ sinksCtx fr ≠ allCtx fr) ∧
  Done (fired st') (allCtx fr) = Done (fired st) (allCtx fr) ∧
  Done (fired st') (sourcesCtx fr) = Done (fired st) (sourcesCtx fr) ∧
  (is_Some (cancelSinks (self st)) → Done (fired st') (sinksCtx fr) = true).
Proof.
  cbv zeta.
  destruct (Start_shape during_auth during_wait (boot a))
    as (Hfr & _ & _ & Hst & evs1 & evs2 & Htr & _).
  destruct (Start_handles during_auth during_wait (boot a)) as (_ & _ & Hh).
  cbn [boot self tasks trace next_cancel fmap list_fmap app] in Hst, Htr, Hh.
  rewrite Hfr. clear Hfr.
  generalize dependent (Start during_auth during_wait (boot a)).2.
  intros st Hst Htr Hh.
  split; [|split; [|split]].
  - destruct (tasks st) as [|t ts]; [done|].
    exists t. cbn in Hst. unfold static in Hst. by inversion Hst.
  - rewrite Htr. set_solver.
  - by eexists.
  - unfold stopSinks, bind, get, call_cancel, modify, ret.
    destruct (cancelSinks (self st)) as [f|] eqn:Hf.
    + destruct Hh as [Hh|Hh]; [done|]. injection Hh as ->.
      cbn [snd set_self set_fired fired Start_frame boot next_cancel
           allCtx sourcesCtx sinksCtx].
      split; [|split].
      * apply Done_other. cbn. set_solver.
      * apply Done_other. cbn. set_solver.
      * intros _. apply Done_fired. set_solver.
    + cbn. split; [done|]. split; [done|]. by intros [].
Qed.

(** C3, as stated, fails: the context of the Gateway's task is not the
    root context, and here the Gateway's transport, which was running,
    returns at its first step after [stopSinks], while the sources keep
    running. *)
Lemma stopSinks_stops_the_gateway :
  let a := sample_agent (sample_gateway None) (until_cancelled None) false false in
  let all := WithCancelCtx 0 Background in
  let before := Start [] [Tick CGateway; Tick CEntitiesSource] (boot a) in
  let after := Start [] [Tick CGateway; Tick CEntitiesSource;
                         CallStopSinks; Tick CGateway; Tick CEntitiesSource]
                 (boot a) in
  allCtx before.1.1 = all ∧
  (fun t => (who t, ctx t, result t)) <$> tasks before.2
    = [(CGateway, WithCancelCtx 2 all, None);
       (CEntitiesSource, WithCancelCtx 1 all, None);
       (CAuditor, WithCancelCtx 1 all, None)] ∧
  (fun t => (who t, ctx t, result t)) <$> tasks after.2
    = [(CGateway, WithCancelCtx 2 all, Some None);
       (CEntitiesSource, WithCancelCtx 1 all, None);
       (CAuditor, WithCancelCtx 1 all, None)] ∧
  Done (fired after.2) (WithCancelCtx 2 all) = true ∧
  Done (fired after.2) (WithCancelCtx 1 all) = false.
Proof. cbv zeta. by vm_compute. Qed.

(** *** The first failure *)

Lemma stuck_tick (c : component) (st : State) : stuck st → stuck (tick c st).2.
Proof.
  intros (Hf & Heg & k1 & k2 & Ht).
  assert (Hkeep : stuck st) by (repeat split; eauto).
  unfold tick, bind, get. rewrite Ht, Hf.
  destruct c; vm_compute (list_find _ _); try exact Hkeep;
    cbn [steps ctx run];
    lazymatch goal with |- context [Done ?fd ?cx] =>
      let b := eval vm_compute in (Done fd cx) in
      change (Done fd cx) with b
    end;
    cbv beta iota;
    unfold emit, modify, ret;
    lazymatch goal with |- context [decide (?k = 0)] =>
      destruct (decide (k = 0))
    end;
    (split; [exact Hf|split; [exact Heg|]]);
    cbn [tasks set_tasks set_trace snd]; rewrite Ht.
  - by exists (S k1), k2.
  - by exists (S k1), k2.
  - by exists k1, (S k2).
  - by exists k1, (S k2).
Qed.

Lemma stuck_waits (cs : list component) (st : State) :
  stuck st →
  (eg_Wait (Tick <$> cs) st).1 = Blocked ∧ stuck (eg_Wait (Tick <$> cs) st).2.
Proof.
  revert st. induction cs as [|c cs IH]; intros st Hst.
  - cbn [fmap list_fmap eg_Wait]. unfold bind, get.
    pose proof Hst as (Hf & Heg & k1 & k2 & Ht). rewrite Ht.
    cbn [forallb has_returned result andb]. done.
  - cbn [fmap list_fmap eg_Wait]. unfold bind, get.
    pose proof Hst as (Hf & Heg & k1 & k2 & Ht). rewrite Ht.
    cbn [forallb has_returned result andb].
    cbn [perform]. pose proof (stuck_tick c st Hst) as Hc.
    destruct (tick c st) as [[] st1]. by apply IH.
Qed.

(** C1, where the code departs from it: the entities source of
    [failing_agent] fails at its first step.  The group keeps the error,
    but under every schedule of the tasks [Start] stays blocked in
    [eg.Wait]: the root context and the contexts of the sources and of the
    sinks are never cancelled, and the Gateway's task and the auditor's
    task keep running. *)
Theorem first_failure_leaves_the_siblings_running (cs : list component) :
  let run := Start [] (Tick <$> CEntitiesSource :: cs) (boot failing_agent) in
  run.1.2 = Blocked ∧
  g_err (eg run.2) = Some "boom"%string ∧
  Returned CEntitiesSource (Some "boom"%string) ∈ trace run.2 ∧
  Done (fired run.2) (allCtx run.1.1) = false ∧
  Done (fired run.2) (sourcesCtx run.1.1) = false ∧
  Done (fired run.2) (sinksCtx run.1.1) = false ∧
  (fun t => (who t, result t)) <$> tasks run.2
    = [(CGateway, None); (CEntitiesSource, Some (Some "boom"%string));
       (CAuditor, None)].
Proof.
  cbv zeta. rewrite Start_unfold. cbv zeta.
  change (WaitAuthorization (aGateway (self (boot failing_agent)))
            AuthorizationTimeoutDuration) with (@None error).
  cbn [interleave ret snd]. cbn [fmap list_fmap].
  set (st0 := launched _ _ _).
  assert (H0 : forallb has_returned (tasks st0) = false) by by vm_compute.
  assert (H1 : stuck (tick CEntitiesSource st0).2).
  { unfold stuck. vm_compute. repeat split. by exists 0, 0. }
  assert (Htr1 : Returned CEntitiesSource (Some "boom"%string)
                 ∈ trace (tick CEntitiesSource st0).2).
  { vm_compute. set_solver. }
  assert (Hw : eg_Wait (Tick CEntitiesSource :: (Tick <$> cs)) st0
               = eg_Wait (Tick <$> cs) (tick CEntitiesSource st0).2).
  { cbn [eg_Wait]. unfold bind at 1. unfold get at 1. rewrite H0.
    cbn [perform]. unfold bind. by destruct (tick CEntitiesSource st0) as [[] ?]. }
  rewrite Hw. clear Hw.
  generalize dependent (tick CEntitiesSource st0).2. intros st1 H1 Htr1.
  destruct (stuck_waits cs st1 H1) as (Hb & Hf & Heg & k1 & k2 & Ht).
  pose proof (ev_trace _ _ (evolves_eg_Wait (Tick <$> cs) st1)) as (evs & Htr & _).
  destruct (eg_Wait (Tick <$> cs) st1) as [o st2].
  cbn [fst snd] in *. subst o. cbn [fst snd].
  rewrite Hf, Heg, Ht, Htr.
  split; [done|]. split; [done|]. split; [set_solver|].
  by vm_compute.
Qed.

(** *** What does hold of the first failure *)

Lemma first_error_app (tr tr' : list event) :
  first_error (tr ++ tr')
  = match first_error tr with Some e => Some e | None => first_error tr' end.
Proof.
  induction tr as [|ev tr IH]; [done|].
  destruct ev as [| | |c [e|]|]; cbn; done.
Qed.

Lemma keeps_first_error_tick (c : component) (st : State) :
  keeps_first_error st → keeps_first_error (tick c st).2.
Proof.
  unfold keeps_first_error, tick, bind, get. intros Hk.
  destruct (list_find (is_live c) (tasks st)) as [[i t]|]; [|done].
  assert (H1 : ∀ st1, g_err (eg st1) = first_error (trace st1) →
            ∀ st2, (if decide (steps t = 0) then emit (Invoked c (ctx t)) else ret ())
                     st1 = ((), st2) →
            g_err (eg st2) = first_error (trace st2)).
  { intros st1 Hst1 st2. unfold emit, modify, ret.
    case_decide; intros [= <-]; [|done]. cbn.
    rewrite first_error_app, <- Hst1. by destruct (g_err (eg st1)). }
  destruct ((if decide (steps t = 0) then emit (Invoked c (ctx t)) else ret ()) st)
    as [[] st1] eqn:E1.
  apply (H1 st Hk) in E1 as Hk1.
  destruct (run t (steps t) (Done (fired st) (ctx t))) as [r|]; [|done].
  unfold modify, emit, modify, eg_returned, bind, get, call_cancel, modify, ret.
  destruct r as [e|]; cbn.
  - destruct (g_err (eg st1)) eqn:E; cbn.
    + by rewrite first_error_app, <- Hk1.
    + destruct (g_cancel (eg st1)); cbn; by rewrite first_error_app, <- Hk1.
  - rewrite first_error_app, <- Hk1. by destruct (g_err (eg st1)).
Qed.

Lemma keeps_first_error_perform (x : action) (st : State) :
  keeps_first_error st → keeps_first_error (perform x st).2.
Proof.
  destruct x; cbn [perform]; unfold bind, ret.
  - apply keeps_first_error_tick.
  - unfold Stop, bind, get, call_cancel, modify, ret.
    by destruct (cancelAll (self st)).
  - unfold stopSources, bind, get, call_cancel, modify, ret.
    by destruct (cancelSources (self st)).
  - unfold stopSinks, bind, get, call_cancel, modify, ret.
    by destruct (cancelSinks (self st)).
Qed.

Lemma keeps_first_error_interleave (sched : list action) (st : State) :
  keeps_first_error st → keeps_first_error (interleave sched st).2.
Proof.
  revert st. induction sched as [|x sched IH]; intros st Hk; [done|].
  cbn [interleave]. unfold bind.
  pose proof (keeps_first_error_perform x st Hk) as Hx.
  destruct (perform x st) as [[] st1]. by apply IH.
Qed.

Lemma keeps_first_error_eg_Wait (sched : list action) (st : State) :
  keeps_first_error st → keeps_first_error (eg_Wait sched st).2.
Proof.
  revert st. induction sched as [|x sched IH]; intros st Hk; cbn [eg_Wait];
    unfold bind, get, ret, call_cancel, modify.
  - destruct (forallb has_returned (tasks st)); [|done].
    by destruct (g_cancel (eg st)).
  - destruct (forallb has_returned (tasks st)).
    + by destruct (g_cancel (eg st)).
    + pose proof (keeps_first_error_perform x st Hk) as Hx.
      destruct (perform x st) as [[] st1]. by apply IH.
Qed.

(** When [Start] returns it returns the error of the authorization gate,
    if the gate gave one, and otherwise the first error a task returned,
    or nil if none did: later errors are dropped. *)
Theorem Start_returns_the_first_error (a : Agent)
    (during_auth during_wait : list action) (r : option error) :
  let run := Start during_auth during_wait (boot a) in
  run.1.2 = Ret r →
  r = match WaitAuthorization (aGateway a) AuthorizationTimeoutDuration with
      | Some e => Some e
      | None => first_error (trace run.2)
      end.
Proof.
  cbv zeta. rewrite Start_unfold. cbv zeta. cbn [boot self].
  destruct (WaitAuthorization _ _) as [e|]; [by intros [= <-]|].
  set (st3 := launched _ _ _).
  assert (H3 : keeps_first_error st3).
  { assert (H1 : keeps_first_error (after_setup (boot a))).
    { unfold keeps_first_error, after_setup, wiring. cbn.
      by destruct (EnableAutomation a), (EnableMetrics a). }
    apply (keeps_first_error_interleave during_auth) in H1.
    unfold keeps_first_error in *. unfold st3, sources. cbn.
    rewrite !first_error_app, <- H1.
    by destruct (g_err _), (EnableMetrics a), (EnableAutomation a). }
  apply (keeps_first_error_eg_Wait during_wait) in H3.
  pose proof (eg_Wait_outcome during_wait st3) as Hw.
  destruct (eg_Wait during_wait st3) as [[r'|] st4]; cbn in *; [|done].
  intros [= <-]. destruct Hw as [_ ->]. done.
Qed.

(** *** What a failing task cancels *)

(** A step of a task fires nothing but the cancel function of the group's
    derived context. *)
Lemma fired_tick (c : component) (st : State) :
  fired (tick c st).2 ⊆ fired st ∪ opt_set (g_cancel (eg st)).
Proof.
  unfold tick, bind, get.
  destruct (list_find (is_live c) (tasks st)) as [[i t]|]; [|set_solver].
  destruct ((if decide (steps t = 0) then emit (Invoked c (ctx t)) else ret ()) st)
    as [[] st1] eqn:E1.
  assert (fired st1 = fired st ∧ eg st1 = eg st) as [Hf Hg].
  { revert E1. unfold emit, modify, ret. by case_decide; intros [= <-]. }
  destruct (run t (steps t) (Done (fired st) (ctx t))) as [[e|]|];
    unfold modify, emit, modify, eg_returned, bind, get, call_cancel, modify, ret;
    cbn; rewrite ?Hg, ?Hf; [|set_solver..].
  destruct (g_err (eg st)); cbn; rewrite ?Hf; [set_solver|].
  destruct (g_cancel (eg st)); cbn; rewrite ?Hf; set_solver.
Qed.

Lemma fired_ticks (cs : list component) (st : State) :
  fired (interleave (Tick <$> cs) st).2 ⊆ fired st ∪ opt_set (g_cancel (eg st)).
Proof.
  revert st. induction cs as [|c cs IH]; intros st; [set_solver|].
  cbn [fmap list_fmap interleave perform]. unfold bind.
  pose proof (fired_tick c st) as Hc.
  pose proof (ev_group _ _ (evolves_tick c st)) as Hg.
  destruct (tick c st) as [[] st1]. cbn [snd] in *.
  specialize (IH st1). rewrite Hg in IH. set_solver.
Qed.

Lemma fired_eg_Wait_ticks (cs : list component) (st : State) :
  fired (eg_Wait (Tick <$> cs) st).2 ⊆ fired st ∪ opt_set (g_cancel (eg st)).
Proof.
  revert st. induction cs as [|c cs IH]; intros st;
    cbn [fmap list_fmap eg_Wait perform]; unfold bind, get, call_cancel, modify, ret.
  - destruct (forallb has_returned (tasks st)); [|set_solver].
    destruct (g_cancel (eg st)); cbn; set_solver.
  - destruct (forallb has_returned (tasks st)).
    + destruct (g_cancel (eg st)); cbn; set_solver.
    + pose proof (fired_tick c st) as Hc.
      pose proof (ev_group _ _ (evolves_tick c st)) as Hg.
      destruct (tick c st) as [[] st1]. cbn [snd] in *.
      specialize (IH st1). rewrite Hg in IH. set_solver.
Qed.

(** Whatever the collaborators do and whichever of them fail, as long as
    nobody calls a stop operation and [Start] is blocked in [eg.Wait], the
    root context, the sources context and the sinks context are live: a
    failure of a task cancels none of the contexts the tasks run on. *)
Theorem task_failures_cancel_no_task_context (a : Agent) (cs1 cs2 : list component) :
  let run := Start (Tick <$> cs1) (Tick <$> cs2) (boot a) in
  run.1.2 = Blocked →
  Done (fired run.2) (allCtx run.1.1) = false ∧
  Done (fired run.2) (sourcesCtx run.1.1) = false ∧
  Done (fired run.2) (sinksCtx run.1.1) = false.
Proof.
  cbv zeta. rewrite Start_unfold. cbv zeta. cbn [boot self next_cancel].
  destruct (WaitAuthorization _ _) as [e|]; [done|].
  set (st2 := (interleave (Tick <$> cs1) (after_setup (boot a))).2).
  assert (H2 : fired st2 ⊆ {[3]} ∧ g_cancel (eg st2) = Some 3).
  { split.
    - pose proof (fired_ticks cs1 (after_setup (boot a))) as H. cbn in H.
      set_solver.
    - exact (ev_group _ _ (evolves_interleave (Tick <$> cs1) (after_setup (boot a)))). }
  destruct H2 as [Hf2 Hg2].
  set (st3 := launched _ _ _).
  pose proof (fired_eg_Wait_ticks cs2 st3) as H4.
  change (fired st3) with (fired st2) in H4.
  change (eg st3) with (eg st2) in H4. rewrite Hg2 in H4. cbn [opt_set] in H4.
  destruct (eg_Wait (Tick <$> cs2) st3) as [[r|] st4]; [done|].
  intros _. cbn [fst snd Start_frame allCtx sourcesCtx sinksCtx boot next_cancel].
  assert (Hno : ∀ cx, (∀ f, f ∈ chain cx → f ≠ 3) → Done (fired st4) cx = false).
  { intros cx Hcx. apply not_true_iff_false. rewrite Done_chain.
    intros (f & Hc & Hfd). apply (Hcx f Hc).
    cbn [snd] in H4. set_solver. }
  repeat split; apply Hno; cbn; intros f; rewrite ?elem_of_cons, elem_of_nil;
    intros Hf; destruct_or?; by subst.
Qed.

(** * Further properties of the supervisor *)

(** *** What a step of a task changes *)

(** The tasks after a step of [c]: the first task of [c] that has not
    returned takes the step its behaviour dictates; nothing else moves. *)
Lemma tick_tasks (c : component) (st : State) :
  tasks (tick c st).2
  = match list_find (is_live c) (tasks st) with
    | None => tasks st
    | Some (i, t) =>
      <[i := stepped t (run t (steps t) (Done (fired st) (ctx t)))]> (tasks st)
    end.
Proof.
  unfold tick, bind, get.
  destruct (list_find (is_live c) (tasks st)) as [[i t]|]; [|done].
  destruct ((if decide (steps t = 0) then emit (Invoked c (ctx t)) else ret ()) st)
    as [[] st1] eqn:E1.
  assert (tasks st1 = tasks st) as Ht.
  { revert E1. unfold emit, modify, ret. by case_decide; intros [= <-]. }
  destruct (run t (steps t) (Done (fired st) (ctx t))) as [[e|]|];
    unfold modify, emit, modify, eg_returned, bind, get, call_cancel, modify, ret;
    cbn; rewrite ?Ht; try done.
  destruct (g_err (eg st1)); cbn; rewrite ?Ht; [done|].
  destruct (g_cancel (eg st1)); cbn; by rewrite ?Ht.
Qed.

Lemma tick_self (c : component) (st : State) : self (tick c st).2 = self st.
Proof.
  unfold tick, bind, get.
  destruct (list_find (is_live c) (tasks st)) as [[i t]|]; [|done].
  destruct ((if decide (steps t = 0) then emit (Invoked c (ctx t)) else ret ()) st)
    as [[] st1] eqn:E1.
  assert (self st1 = self st) as Hs.
  { revert E1. unfold emit, modify, ret. by case_decide; intros [= <-]. }
  destruct (run t (steps t) (Done (fired st) (ctx t))) as [[e|]|];
    unfold modify, emit, modify, eg_returned, bind, get, call_cancel, modify, ret;
    cbn; rewrite ?Hs; try done.
  destruct (g_err (eg st1)); cbn; rewrite ?Hs; [done|].
  destruct (g_cancel (eg st1)); cbn; by rewrite ?Hs.
Qed.

(** The behaviours of the tasks never change. *)
Lemma runs_kept_perform (x : action) (st : State) :
  run <$> tasks (perform x st).2 = run <$> tasks st.
Proof.
  destruct x; cbn [perform]; unfold bind, ret.
  - rewrite tick_tasks.
    destruct (list_find (is_live c) (tasks st)) as [[i t]|] eqn:Hf; [|done].
    apply live_task_known in Hf as (Hi & _).
    rewrite list_fmap_insert. apply list_insert_id.
    by rewrite list_lookup_fmap, Hi.
  - unfold Stop, bind, get, call_cancel, modify, ret.
    by destruct (cancelAll (self st)).
  - unfold stopSources, bind, get, call_cancel, modify, ret.
    by destruct (cancelSources (self st)).
  - unfold stopSinks, bind, get, call_cancel, modify, ret.
    by destruct (cancelSinks (self st)).
Qed.

Lemma runs_kept_interleave (sched : list action) (st : State) :
  run <$> tasks (interleave sched st).2 = run <$> tasks st.
Proof.
  revert st. induction sched as [|x sched IH]; intros st; [done|].
  cbn [interleave]. unfold bind.
  pose proof (runs_kept_perform x st) as Hx.
  destruct (perform x st) as [[] st1]. cbn [snd] in Hx. by rewrite IH.
Qed.

Lemma runs_kept_eg_Wait (sched : list action) (st : State) :
  run <$> tasks (eg_Wait sched st).2 = run <$> tasks st.
Proof.
  revert st. induction sched as [|x sched IH]; intros st; cbn [eg_Wait];
    unfold bind, get, ret, call_cancel, modify.
  - destruct (forallb has_returned (tasks st)); [|done].
    by destruct (g_cancel (eg st)).
  - destruct (forallb has_returned (tasks st)).
    + by destruct (g_cancel (eg st)).
    + pose proof (runs_kept_perform x st) as Hx.
      destruct (perform x st) as [[] st1]. cbn [snd] in Hx. by rewrite IH.
Qed.

(** The root cancel function stays tracked: only [Stop] resets the handle,
    and it calls the function first. *)
Lemma root_tracked_perform (n : CancelFunc) (x : action) (st : State) :
  root_tracked n st → root_tracked n (perform x st).2.
Proof.
  unfold root_tracked. intros Hn.
  destruct x; cbn [perform]; unfold bind, ret.
  - rewrite tick_self.
    destruct Hn as [Hn|Hn]; [by left|right].
    by apply (ev_fired_mono _ _ (evolves_tick c st)).
  - unfold Stop, bind, get, call_cancel, modify, ret.
    destruct (cancelAll (self st)) as [f|] eqn:Hf; cbn; [|by rewrite Hf].
    right. destruct Hn as [[= ->]|Hn]; set_solver.
  - unfold stopSources, bind, get, call_cancel, modify, ret.
    destruct (cancelSources (self st)) as [f|]; cbn; [|done].
    destruct Hn as [Hn|Hn]; [by left|right; set_solver].
  - unfold stopSinks, bind, get, call_cancel, modify, ret.
    destruct (cancelSinks (self st)) as [f|]; cbn; [|done].
    destruct Hn as [Hn|Hn]; [by left|right; set_solver].
Qed.

Lemma root_tracked_interleave (n : CancelFunc) (sched : list action) (st : State) :
  root_tracked n st → root_tracked n (interleave sched st).2.
Proof.
  revert st. induction sched as [|x sched IH]; intros st Hn; [done|].
  cbn [interleave]. unfold bind.
  pose proof (root_tracked_perform n x st Hn) as Hx.
  destruct (perform x st) as [[] st1]. by apply IH.
Qed.

Lemma root_tracked_eg_Wait (n : CancelFunc) (sched : list action) (st : State) :
  root_tracked n st → root_tracked n (eg_Wait sched st).2.
Proof.
  revert st. induction sched as [|x sched IH]; intros st Hn; cbn [eg_Wait];
    unfold bind, get, ret, call_cancel, modify.
  - destruct (forallb has_returned (tasks st)); [|done].
    destruct (g_cancel (eg st)); [|done]. cbn.
    destruct Hn as [Hn|Hn]; [by left|right; set_solver].
  - destruct (forallb has_returned (tasks st)).
    + destruct (g_cancel (eg st)); [|done]. cbn.
      destruct Hn as [Hn|Hn]; [by left|right; set_solver].
    + pose proof (root_tracked_perform n x st Hn) as Hx.
      destruct (perform x st) as [[] st1]. by apply IH.
Qed.

(** In every state of a run the root cancel function is tracked. *)
Lemma Start_root_tracked (during_auth during_wait : list action) (st : State) :
  root_tracked (next_cancel st) (Start during_auth during_wait st).2.
Proof.
  rewrite Start_unfold. cbv zeta.
  assert (H2 : root_tracked (next_cancel st)
                 (interleave during_auth (after_setup st)).2).
  { apply root_tracked_interleave. by left. }
  destruct (WaitAuthorization _ _) as [e|].
  - right. cbn. set_solver.
  - set (st3 := launched _ _ _).
    assert (H3 : root_tracked (next_cancel st) st3) by exact H2.
    apply (root_tracked_eg_Wait _ during_wait) in H3.
    destruct (eg_Wait during_wait st3) as [[r|] st4]; cbn [fst snd] in *; [|done].
    right. cbn. set_solver.
Qed.

(** *** Stop during a run *)

(** The tasks of a run are on the sinks context (the Gateway's) or on the
    sources context (all others). *)
Lemma Start_task_contexts (a : Agent) (during_auth during_wait : list action)
    (t : task) :
  let run := Start during_auth during_wait (boot a) in
  t ∈ tasks run.2 →
  (who t = CGateway ∧ ctx t = sinksCtx (Start_frame (boot a))) ∨
  (who t ≠ CGateway ∧ ctx t = sourcesCtx (Start_frame (boot a))).
Proof.
  cbv zeta. intros Ht.
  destruct (Start_shape during_auth during_wait (boot a))
    as (_ & _ & _ & Hst & _).
  cbn [boot self tasks fmap list_fmap app] in Hst.
  apply (list_elem_of_fmap_2 static) in Ht. rewrite Hst in Ht.
  apply elem_of_cons in Ht as [Ht|Ht].
  { left. unfold static in Ht. by injection Ht. }
  right. destruct (WaitAuthorization _ _); [by apply elem_of_nil in Ht|].
  unfold sources, static, new_task in Ht.
  destruct (EnableMetrics a), (EnableAutomation a); cbn in Ht;
    rewrite ?elem_of_cons, ?elem_of_nil in Ht; destruct_or?; try done;
    by injection Ht as -> ->.
Qed.

(** [Stop], called at any moment of a run, leaves the root context
    cancelled, and with it the sources and the sinks contexts and the
    context of every task that has been launched: either this call fires
    the root cancel function, or an earlier [Stop] or the return of
    [Start] has. *)
Theorem Stop_cancels_every_task_context (a : Agent)
    (during_auth during_wait : list action) :
  let run := Start during_auth during_wait (boot a) in
  let st' := (Stop run.2).2 in
  Done (fired st') (allCtx run.1.1) = true ∧
  Done (fired st') (sourcesCtx run.1.1) = true ∧
  Done (fired st') (sinksCtx run.1.1) = true ∧
  tasks st' = tasks run.2 ∧
  ∀ t, t ∈ tasks st' → Done (fired st') (ctx t) = true.
Proof.
  cbv zeta.
  destruct (Start_shape during_auth during_wait (boot a)) as (-> & _).
  pose proof (Start_root_tracked during_auth during_wait (boot a)) as Hn.
  pose proof (Start_task_contexts a during_auth during_wait) as Hctx.
  cbv zeta in Hctx. cbn [boot next_cancel] in Hn.
  generalize dependent (Start during_auth during_wait (boot a)).2.
  intros st Hn Hctx.
  assert (H0 : 0 ∈ fired (Stop st).2 ∧ tasks (Stop st).2 = tasks st).
  { unfold Stop, bind, get, call_cancel, modify, ret, root_tracked in *.
    destruct (cancelAll (self st)) as [f|]; cbn.
    - split; [|done]. destruct Hn as [[= ->]|Hn]; set_solver.
    - split; [|done]. by destruct Hn. }
  destruct H0 as [H0 Ht].
  assert (Hall : Done (fired (Stop st).2) (allCtx (Start_frame (boot a))) = true).
  { by apply Done_fired. }
  split; [done|]. split; [by apply Done_child|]. split; [by apply Done_child|].
  split; [done|].
  intros t Hin. rewrite Ht in Hin.
  destruct (Hctx t Hin) as [[_ ->]|[_ ->]]; by apply Done_child.
Qed.

(** *** Schedules compose *)

Lemma interleave_app (s1 s2 : list action) (st : State) :
  interleave (s1 ++ s2) st = interleave s2 (interleave s1 st).2.
Proof.
  revert st. induction s1 as [|x s1 IH]; intros st; [done|].
  cbn [app interleave]. unfold bind.
  destruct (perform x st) as [[] st1]. apply IH.
Qed.

(** [eg.Wait] over a longer schedule: if it has returned it has returned;
    otherwise it goes on waiting from where it was. *)
Lemma eg_Wait_app (s1 s2 : list action) (st : State) :
  eg_Wait (s1 ++ s2) st
  = match (eg_Wait s1 st).1 with
    | Ret r => eg_Wait s1 st
    | Blocked => eg_Wait s2 (eg_Wait s1 st).2
    end.
Proof.
  revert st. induction s1 as [|x s1 IH]; intros st.
  - cbn [app]. destruct (forallb has_returned (tasks st)) eqn:E.
    + assert (Hs : ∀ s, eg_Wait s st = eg_Wait [] st).
      { intros [|y s]; cbn [eg_Wait]; unfold bind, get; by rewrite E. }
      rewrite (Hs s2). cbn [eg_Wait]. unfold bind, get. rewrite E.
      by destruct (g_cancel (eg st)).
    + assert (Hs : eg_Wait [] st = (Blocked, st)).
      { cbn [eg_Wait]. unfold bind, get. by rewrite E. }
      by rewrite Hs.
  - cbn [app eg_Wait]. unfold bind, get.
    destruct (forallb has_returned (tasks st)) eqn:E.
    + by destruct (g_cancel (eg st)).
    + destruct (perform x st) as [[] st1]. apply IH.
Qed.

(** [eg.Wait] returns within a schedule that lets every task return. *)
Lemma eg_Wait_returns (sched : list action) (st : State) :
  forallb has_returned (tasks (interleave sched st).2) = true →
  ∃ r, (eg_Wait sched st).1 = Ret r.
Proof.
  revert st. induction sched as [|x sched IH]; intros st Hall;
    cbn [eg_Wait]; unfold bind, get.
  - cbn in Hall. rewrite Hall. destruct (g_cancel (eg st)); by eexists.
  - destruct (forallb has_returned (tasks st)).
    + destruct (g_cancel (eg st)); by eexists.
    + cbn [interleave] in Hall. unfold bind in Hall.
      destruct (perform x st) as [[] st1]. by apply IH.
Qed.

(** A run over a longer schedule continues the run over the shorter one. *)
Lemma Start_app (during_auth s1 s2 : list action) (st : State) :
  Start during_auth (s1 ++ s2) st
  = match (Start during_auth s1 st).1.2 with
    | Ret r => Start during_auth s1 st
    | Blocked =>
      let w := eg_Wait s2 (Start during_auth s1 st).2 in
      match w.1 with
      | Ret r => (Start_frame st, Ret r, deferred (next_cancel st) w.2)
      | Blocked => (Start_frame st, Blocked, w.2)
      end
    end.
Proof.
  rewrite !Start_unfold. cbv zeta.
  destruct (WaitAuthorization _ _) as [e|]; [done|].
  set (st3 := launched _ _ _). rewrite eg_Wait_app.
  destruct (eg_Wait s1 st3) as [[r|] st4]; cbn [fst snd]; done.
Qed.

(** *** Stop makes Start return *)

Lemma all_cancelled_tick (c : component) (st : State) :
  all_cancelled st → all_cancelled (tick c st).2.
Proof.
  unfold all_cancelled. intros Hq.
  pose proof (ev_fired_mono _ _ (evolves_tick c st)) as Hmono.
  assert (Hq' : Forall (fun t => Done (fired (tick c st).2) (ctx t) = true
                               ∧ honours_cancellation (run t)) (tasks st)).
  { eapply Forall_impl; [exact Hq|]. intros t [Hd Hh].
    split; [by eapply Done_mono|done]. }
  rewrite tick_tasks.
  destruct (list_find (is_live c) (tasks st)) as [[i t]|] eqn:Hf; [|done].
  apply live_task_known in Hf as (Hi & _).
  apply Forall_insert; [done|].
  exact (Forall_lookup_1 _ _ _ _ Hq' Hi).
Qed.

(** A returned task stays returned. *)
Lemma done_of_tick (c c' : component) (st : State) :
  done_of c st → done_of c (tick c' st).2.
Proof.
  unfold done_of. intros Hd t Hin Hw. rewrite tick_tasks in Hin.
  destruct (list_find (is_live c') (tasks st)) as [[i t']|] eqn:Hf; [|by apply Hd].
  apply live_task_known in Hf as (Hi & Hw' & Hr' & _).
  apply list_elem_of_lookup_1 in Hin as (j & Hj).
  apply list_lookup_insert_Some in Hj as [(-> & <- & _)|(_ & Hj)].
  - cbn in Hw. apply list_elem_of_lookup_2 in Hi.
    destruct (Hd t' Hi Hw) as [r Hr]. congruence.
  - apply Hd; [|done]. by apply list_elem_of_lookup_2 in Hj.
Qed.

Lemma done_of_ticks (c : component) (cs : list component) (st : State) :
  done_of c st → done_of c (interleave (Tick <$> cs) st).2.
Proof.
  revert st. induction cs as [|c' cs IH]; intros st Hd; [done|].
  cbn [fmap list_fmap interleave perform]. unfold bind.
  pose proof (done_of_tick c c' st Hd) as Hc.
  destruct (tick c' st) as [[] st1]. by apply IH.
Qed.

(** With one task per collaborator, a step of [c] when every context is
    done makes the task of [c] return. *)
Lemma done_of_tick_cancelled (c : component) (st : State) :
  all_cancelled st → NoDup (who <$> tasks st) → done_of c (tick c st).2.
Proof.
  unfold all_cancelled, done_of. intros Hq Hnd t Hin Hw. rewrite tick_tasks in Hin.
  destruct (list_find (is_live c) (tasks st)) as [[i t']|] eqn:Hf.
  - apply live_task_known in Hf as (Hi & Hw' & Hr' & _).
    destruct (Forall_lookup_1 _ _ _ _ Hq Hi) as [Hdone Hh].
    rewrite Hdone in Hin. destruct (Hh (steps t')) as [r Hr]. rewrite Hr in Hin.
    apply list_elem_of_lookup_1 in Hin as (j & Hj).
    apply list_lookup_insert_Some in Hj as [(-> & <- & _)|(Hne & Hj)]; [by eexists|].
    exfalso. apply Hne.
    apply (NoDup_lookup _ i j c Hnd); rewrite list_lookup_fmap.
    + by rewrite Hi; cbn; rewrite Hw'.
    + by rewrite Hj; cbn; rewrite Hw.
  - apply list_find_None in Hf.
    apply (proj1 (Forall_forall _ _) Hf) in Hin.
    destruct (result t) eqn:Hr; [by eexists|]. by destruct Hin.
Qed.

(** After a round of steps with every context done, every task has
    returned. *)
Lemma round_returns (cs : list component) (st : State) :
  all_cancelled st → NoDup (who <$> tasks st) →
  ∀ c, c ∈ cs → done_of c (interleave (Tick <$> cs) st).2.
Proof.
  revert st. induction cs as [|c0 cs IH]; intros st Hq Hnd c Hc.
  { by apply elem_of_nil in Hc. }
  cbn [fmap list_fmap interleave perform]. unfold bind.
  pose proof (all_cancelled_tick c0 st Hq) as Hq1.
  pose proof (evolves_who _ _ (evolves_tick c0 st)) as Hw1.
  pose proof (done_of_tick_cancelled c0 st Hq Hnd) as Hd1.
  destruct (tick c0 st) as [[] st1]. cbn [snd] in *.
  rewrite <- Hw1 in Hnd.
  destruct (decide (c = c0)) as [->|Hne].
  - by apply done_of_ticks.
  - apply IH; try done. apply elem_of_cons in Hc as [?|?]; done.
Qed.

Lemma Stop_fires_root (n : CancelFunc) (st : State) :
  root_tracked n st → n ∈ fired (Stop st).2 ∧ tasks (Stop st).2 = tasks st.
Proof.
  unfold Stop, bind, get, call_cancel, modify, ret, root_tracked. intros Hn.
  destruct (cancelAll (self st)) as [f|]; cbn.
  - split; [|done]. destruct Hn as [[= ->]|Hn]; set_solver.
  - split; [|done]. by destruct Hn.
Qed.

(** The tasks of a run have the behaviours of the agent's collaborators. *)
Lemma Start_runs_cooperative (a : Agent) (during_auth during_wait : list action) :
  cooperative a →
  Forall (fun t => honours_cancellation (run t))
    (tasks (Start during_auth during_wait (boot a)).2).
Proof.
  intros (Hgw & Hes & Hms & Hae & Hau).
  apply (Forall_fmap run honours_cancellation).
  rewrite Start_unfold. cbv zeta. cbn [boot self].
  assert (H2 : run <$> tasks (interleave during_auth (after_setup (boot a))).2
               = [Gateway_Start (aGateway a)]).
  { by rewrite runs_kept_interleave. }
  destruct (WaitAuthorization _ _) as [e|].
  - cbn. rewrite H2. by repeat constructor.
  - set (st3 := launched _ _ _).
    assert (H3 : Forall honours_cancellation (run <$> tasks st3)).
    { unfold st3, launched. cbn [tasks set_tasks set_trace authorized].
      rewrite fmap_app, H2. unfold sources.
      destruct (EnableMetrics a), (EnableAutomation a); cbn;
        by repeat constructor. }
    rewrite <- (runs_kept_eg_Wait during_wait st3) in H3.
    by destruct (eg_Wait during_wait st3) as [[r|] st4].
Qed.

Lemma Start_one_task_each (a : Agent) (during_auth during_wait : list action) :
  NoDup (who <$> tasks (Start during_auth during_wait (boot a)).2).
Proof.
  destruct (Start_shape during_auth during_wait (boot a))
    as (_ & _ & _ & Hst & _).
  cbn [boot self tasks fmap list_fmap app] in Hst.
  rewrite who_static, Hst. unfold sources.
  destruct (WaitAuthorization _ _), (EnableMetrics a), (EnableAutomation a);
    cbn; apply (bool_decide_unpack _); by vm_compute.
Qed.

(** A call of [Stop] makes [Start] return, provided the collaborators
    honour cancellation: whatever has happened during the authorization
    and while [Start] was waiting, once [Stop] has been called and every
    task has been scheduled once more, [Start] has returned. *)
Theorem Stop_makes_Start_return (a : Agent) (during_auth during_wait : list action) :
  cooperative a →
  ∃ r, (Start during_auth (during_wait ++ CallStop :: (Tick <$> round)) (boot a)).1.2
       = Ret r.
Proof.
  intros Hco. rewrite Start_app.
  destruct (Start during_auth during_wait (boot a)).1.2 as [r|] eqn:E.
  { rewrite E. by eexists. }
  cbv zeta.
  pose proof (Start_root_tracked during_auth during_wait (boot a)) as Hn.
  pose proof (Start_task_contexts a during_auth during_wait) as Hctx.
  pose proof (Start_runs_cooperative a during_auth during_wait Hco) as Hrun.
  pose proof (Start_one_task_each a during_auth during_wait) as Hnd.
  cbv zeta in Hctx. cbn [boot next_cancel] in Hn. clear E.
  generalize dependent (Start during_auth during_wait (boot a)).2.
  intros st Hn Hctx Hrun Hnd.
  destruct (eg_Wait_returns (CallStop :: (Tick <$> round)) st) as [r Hr].
  - cbn [interleave perform]. unfold bind, ret.
    destruct (Stop_fires_root 0 st Hn) as [H0 Ht].
    destruct (Stop st) as [o st1]. cbn [snd] in *.
    assert (Hq : all_cancelled st1).
    { unfold all_cancelled. rewrite Ht.
      apply Forall_forall. intros t Hin. split.
      - destruct (Hctx t Hin) as [[_ ->]|[_ ->]];
          apply Done_child; by apply Done_fired.
      - by apply (proj1 (Forall_forall _ _) Hrun). }
    rewrite <- Ht in Hnd.
    apply forallb_forall. intros t Hin. apply list_elem_of_In in Hin.
    assert (Hc : who t ∈ round).
    { unfold round. destruct (who t); set_solver. }
    destruct (round_returns round st1 Hq Hnd (who t) Hc t Hin eq_refl) as [x Hx].
    unfold has_returned. by rewrite Hx.
  - rewrite Hr. by eexists.
Qed.

Lemma Stop_makes_Start_return_witness :
  ∃ r, (Start [Tick CGateway]
          ([Tick CEntitiesSource; Tick CGateway] ++ CallStop :: (Tick <$> round))
          (boot (sample_agent (sample_gateway None) (until_cancelled None) true true))).1.2
       = Ret r.
Proof.
  apply (Stop_makes_Start_return
           (sample_agent (sample_gateway None) (until_cancelled None) true true)
           [Tick CGateway] [Tick CEntitiesSource; Tick CGateway]).
  repeat split; intros k; by eexists.
Defined.

(** *** When Start returns *)

(** After a successful authorization [Start] returns only when every task
    it has launched has returned: the Gateway's, the entities source's,
    the auditor's and those of the enabled sources. *)
Theorem Start_returns_after_every_task (a : Agent)
    (during_auth during_wait : list action) (r : option error) :
  WaitAuthorization (aGateway a) AuthorizationTimeoutDuration = None →
  (Start during_auth during_wait (boot a)).1.2 = Ret r →
  (∀ t, t ∈ tasks (Start during_auth during_wait (boot a)).2 → is_Some (result t)) ∧
  ∀ c, c ∈ [CGateway; CEntitiesSource; CAuditor] →
       ∃ t, t ∈ tasks (Start during_auth during_wait (boot a)).2 ∧ who t = c.
Proof.
  intros Hauth Hret. split.
  - destruct (Start_stages during_auth during_wait (boot a)) as (st2 & _ & H).
    cbn [boot self] in H. rewrite Hauth in H.
    destruct H as (st4 & _ & [[H _]|[H Hall]]); rewrite H in Hret; [done|].
    rewrite H. cbn [snd deferred set_fired tasks].
    intros t Hin. apply list_elem_of_In in Hin.
    apply (proj1 (forallb_forall _ _) Hall) in Hin.
    unfold has_returned in Hin. by destruct (result t).
  - destruct (Start_shape during_auth during_wait (boot a))
      as (_ & _ & _ & Hst & _).
    cbn [boot self tasks fmap list_fmap app] in Hst. rewrite Hauth in Hst.
    intros c Hc.
    assert (Hin : c ∈ who <$> tasks (Start during_auth during_wait (boot a)).2).
    { rewrite who_static, Hst. unfold sources.
      destruct (EnableMetrics a), (EnableAutomation a); cbn; set_solver. }
    apply list_elem_of_fmap in Hin as (t & -> & Hin). by exists t.
Qed.

Lemma Start_returns_after_every_task_witness :
  let run := Start [] [Tick CEntitiesSource; CallStop; Tick CGateway; Tick CAuditor]
               (boot failing_agent) in
  (∀ t, t ∈ tasks run.2 → is_Some (result t)) ∧
  ∀ c, c ∈ [CGateway; CEntitiesSource; CAuditor] →
       ∃ t, t ∈ tasks run.2 ∧ who t = c.
Proof.
  cbv zeta.
  apply (Start_returns_after_every_task failing_agent []
           [Tick CEntitiesSource; CallStop; Tick CGateway; Tick CAuditor]
           (Some "boom"%string)); by vm_compute.
Defined.

Lemma Start_returns_the_first_error_witness :
  let a := sample_agent (sample_gateway None)
             (returns_at_once (Some "boom"%string)) false false in
  let run := Start [] [Tick CEntitiesSource; CallStop; Tick CGateway; Tick CAuditor]
               (boot a) in
  Some "boom"%string
  = match WaitAuthorization (aGateway a) AuthorizationTimeoutDuration with
    | Some e => Some e
    | None => first_error (trace run.2)
    end.
Proof.
  cbv zeta.
  apply (Start_returns_the_first_error
           (sample_agent (sample_gateway None)
              (returns_at_once (Some "boom"%string)) false false)
           [] [Tick CEntitiesSource; CallStop; Tick CGateway; Tick CAuditor]
           (Some "boom"%string)); by vm_compute.
Defined.

Lemma task_failures_cancel_no_task_context_witness :
  let run := Start (Tick <$> [CGateway]) (Tick <$> [CEntitiesSource; CAuditor])
               (boot failing_agent) in
  Done (fired run.2) (allCtx run.1.1) = false ∧
  Done (fired run.2) (sourcesCtx run.1.1) = false ∧
  Done (fired run.2) (sinksCtx run.1.1) = false.
Proof.
  cbv zeta.
  apply (task_failures_cancel_no_task_context failing_agent
           [CGateway] [CEntitiesSource; CAuditor]); by vm_compute.
Defined.

(** [Stop] after [Start] has returned fires nothing new: the root cancel
    function has been called by the deferred call, so [Stop] only resets
    the handle. *)
Theorem Stop_after_return_fires_nothing (during_auth during_wait : list action)
    (st st' : State) (fr : locals) (r : option error) :
  Start during_auth during_wait st = (fr, Ret r, st') →
  (Stop st').1 = None ∧
  fired (Stop st').2 = fired st' ∧
  tasks (Stop st').2 = tasks st' ∧
  eg (Stop st').2 = eg st' ∧
  trace (Stop st').2 = trace st' ∧
  cancelAll (self (Stop st').2) = None.
Proof.
  intros HS.
  destruct (Start_handles during_auth during_wait st) as (Hh & _).
  pose proof (Start_root_tracked during_auth during_wait st) as Hn.
  assert (Hf : next_cancel st ∈ fired st').
  { destruct (Start_stages during_auth during_wait st) as (st2 & _ & H).
    destruct (WaitAuthorization _ _) as [e|].
    - rewrite HS in H. injection H as _ _ ->. cbn. set_solver.
    - destruct H as (st4 & _ & [[H _]|[H _]]); rewrite HS in H; [done|].
      injection H as _ _ ->. cbn. set_solver. }
  rewrite HS in Hh. cbn [snd] in Hh. clear HS Hn.
  unfold Stop, bind, get, call_cancel, modify, ret.
  destruct (cancelAll (self st')) as [f|] eqn:E; cbn; [|by rewrite E].
  destruct Hh as [Hh|[= ->]]; [done|].
  repeat split. apply subseteq_union_1_L. set_solver.
Qed.

Lemma Stop_after_return_fires_nothing_witness :
  let run := Start [] [Tick CEntitiesSource; CallStop; Tick CGateway; Tick CAuditor]
               (boot failing_agent) in
  (Stop run.2).1 = None ∧
  fired (Stop run.2).2 = fired run.2 ∧
  tasks (Stop run.2).2 = tasks run.2 ∧
  eg (Stop run.2).2 = eg run.2 ∧
  trace (Stop run.2).2 = trace run.2 ∧
  cancelAll (self (Stop run.2).2) = None.
Proof.
  cbv zeta.
  match goal with |- context [Start ?s1 ?s2 ?st] =>
    apply (Stop_after_return_fires_nothing s1 s2 st (Start s1 s2 st).2
             (Start s1 s2 st).1.1 (Some "boom"%string))
  end.
  by vm_compute.
Defined.

(** *** Stopping the sources *)

(** [stopSources], called at any moment of a run, leaves the root context
    and the sinks context (the Gateway's) as they are; its first call
    cancels the sources context, and so the context of every task but the
    Gateway's. *)
Theorem stopSources_cancels_the_sources_only (a : Agent)
    (during_auth during_wait : list action) :
  let run := Start during_auth during_wait (boot a) in
  let fr := run.1.1 in
  let st := run.2 in
  let st' := (stopSources st).2 in
  Done (fired st') (allCtx fr) = Done (fired st) (allCtx fr) ∧
  Done (fired st') (sinksCtx fr) = Done (fired st) (sinksCtx fr) ∧
  (∀ t, t ∈ tasks st' → who t = CGateway →
        Done (fired st') (ctx t) = Done (fired st) (ctx t)) ∧
  (is_Some (cancelSources (self st)) →
     Done (fired st') (sourcesCtx fr) = true ∧
     ∀ t, t ∈ tasks st' → who t ≠ CGateway → Done (fired st') (ctx t) = true).
Proof.
  cbv zeta.
  destruct (Start_shape during_auth during_wait (boot a)) as (-> & _).
  destruct (Start_handles during_auth during_wait (boot a)) as (_ & Hh & _).
  pose proof (Start_task_contexts a during_auth during_wait) as Hctx.
  cbv zeta in Hctx. cbn [boot next_cancel] in Hh.
  generalize dependent (Start during_auth during_wait (boot a)).2.
  intros st Hh Hctx.
  unfold stopSources, bind, get, call_cancel, modify, ret.
  destruct (cancelSources (self st)) as [f|] eqn:Hf.
  - destruct Hh as [Hh|Hh]; [done|]. injection Hh as ->.
    cbn [snd set_self set_fired fired tasks].
    assert (Hsinks : Done ({[1]} ∪ fired st) (sinksCtx (Start_frame (boot a)))
                     = Done (fired st) (sinksCtx (Start_frame (boot a)))).
    { apply Done_other. cbn. set_solver. }
    assert (Hsrc : Done ({[1]} ∪ fired st) (sourcesCtx (Start_frame (boot a)))
                   = true).
    { apply Done_fired. set_solver. }
    split; [apply Done_other; cbn; set_solver|]. split; [done|]. split.
    + intros t Hin Hw. destruct (Hctx t Hin) as [[_ ->]|[Hne _]]; done.
    + intros _. split; [done|].
      intros t Hin Hw. destruct (Hctx t Hin) as [[Hgw _]|[_ ->]]; done.
  - cbn. split; [done|]. split; [done|]. split; [done|]. by intros [].
Qed.

(** *** The wiring table *)

(** Whatever the gate answers, when [Start] returns or blocks the seven
    unconditional handlers are the ones of the code, whatever was
    registered before; the metrics and automation slots hold their
    handlers if the flag is set and are left as they were if it is not. *)
Theorem Start_wires_the_handlers (during_auth during_wait : list action)
    (st : State) :
  let st' := (Start during_auth during_wait st).2 in
  handlers st' SetDeltasHandler = Some handleDeltas ∧
  handlers st' SetEntitiesResyncHandler = Some handleResync ∧
  handlers st' SetAuditResultHandler = Some handleAuditResult ∧
  handlers st' SetAuditCommandHandler = Some HandleAuditCommand ∧
  handlers st' SetConstraintsHandler = Some HandleConstraints ∧
  handlers st' SetRestartHandler = Some handleRestart ∧
  handlers st' SetChangeLogLevelHandler = Some handleLogLevelChange ∧
  handlers st' SetMetricsHandler
    = (if EnableMetrics (self st) then Some handleMetrics
       else handlers st SetMetricsHandler) ∧
  handlers st' SetAutomationHandler
    = (if EnableAutomation (self st) then Some SubmitAutomation
       else handlers st SetAutomationHandler) ∧
  handlers st' SetAutomationFeedbackHandler
    = (if EnableAutomation (self st) then Some handleAutomationFeedback
       else handlers st SetAutomationFeedbackHandler).
Proof.
  cbv zeta.
  destruct (Start_shape during_auth during_wait st) as (_ & _ & -> & _).
  unfold after_setup, wiring. cbn [handlers].
  destruct (EnableMetrics (self st)), (EnableAutomation (self st));
    repeat split.
Qed.

(** *** Cancellation is final *)

(** A context that is done stays done: no step of a task and no stop
    operation brings it back, and a context that is done at some moment of
    a run is done at every later moment of it. *)
Theorem cancellation_is_final (st : State) (cx : Context)
    (sched during_auth during_wait later : list action) :
  (Done (fired st) cx = true →
   Done (fired (interleave sched st).2) cx = true) ∧
  (Done (fired (Start during_auth during_wait st).2) cx = true →
   Done (fired (Start during_auth (during_wait ++ later) st).2) cx = true).
Proof.
  split; intros Hd; (eapply Done_mono; [|exact Hd]).
  - apply (ev_fired_mono _ _ (evolves_interleave sched st)).
  - rewrite Start_app.
    destruct (Start during_auth during_wait st).1.2 as [r|]; [done|].
    cbv zeta.
    pose proof (ev_fired_mono _ _
                  (evolves_eg_Wait later (Start during_auth during_wait st).2))
      as Hm.
    destruct (eg_Wait later (Start during_auth during_wait st).2) as [[r|] st4];
      cbn [fst snd deferred set_fired fired] in *; set_solver.
Qed.

Lemma cancellation_is_final_witness :
  let a := sample_agent (sample_gateway None) (until_cancelled None) false false in
  let stopped := Start [] [CallStop] (boot a) in
  let cx := allCtx stopped.1.1 in
  Done (fired (interleave [Tick CGateway; CallStopSources] stopped.2).2) cx = true ∧
  Done (fired (Start [] ([CallStop] ++ [Tick CGateway]) (boot a)).2) cx = true.
Proof.
  cbv zeta. split.
  - apply (proj1 (cancellation_is_final
                    (Start [] [CallStop]
                       (boot (sample_agent (sample_gateway None)
                                (until_cancelled None) false false))).2
                    _ [Tick CGateway; CallStopSources] [] [] [])).
    by vm_compute.
  - apply (proj2 (cancellation_is_final
                    (boot (sample_agent (sample_gateway None)
                             (until_cancelled None) false false))
                    _ [] [] [CallStop] [Tick CGateway])).
    by vm_compute.
Defined.

(** *** Stop during the authorization *)

(** A [Stop] that comes while [Start] waits for the authorization does
    not make [Start] give up: if the gate then answers nil, [Start] goes
    on to launch the entities source and the auditor, on a sources
    context that is cancelled before they start, and blocks in
    [eg.Wait] until they return. *)
Theorem Stop_during_authorization_still_launches (a : Agent)
    (before after : list action) :
  WaitAuthorization (aGateway a) AuthorizationTimeoutDuration = None →
  let run := Start (before ++ CallStop :: after) [] (boot a) in
  run.1.2 = Blocked ∧
  Done (fired run.2) (sourcesCtx run.1.1) = true ∧
  ∀ c, c ∈ [CEntitiesSource; CAuditor] →
       ∃ t, t ∈ tasks run.2 ∧ who t = c ∧ ctx t = sourcesCtx run.1.1 ∧
            steps t = 0 ∧ result t = None.
Proof.
  intros Hauth. cbv zeta. rewrite Start_unfold. cbv zeta.
  cbn [boot self]. rewrite Hauth.
  set (st0 := after_setup _).
  assert (Hf : 0 ∈ fired (interleave (before ++ CallStop :: after) st0).2).
  { rewrite interleave_app. cbn [interleave perform]. unfold bind, ret.
    assert (Hn : root_tracked 0 (interleave before st0).2)
      by (apply root_tracked_interleave; by left).
    destruct (Stop_fires_root 0 _ Hn) as [H0 _].
    destruct (Stop (interleave before st0).2) as [o st1]. cbn [snd] in *.
    by apply (ev_fired_mono _ _ (evolves_interleave after st1)). }
  generalize dependent (interleave (before ++ CallStop :: after) st0).2.
  intros st2 Hf. clear st0.
  assert (Hb : forallb has_returned
                 (tasks (launched a (sourcesCtx (Start_frame (boot a)))
                           (authorized None st2))) = false).
  { apply not_true_iff_false. intros Hall.
    rewrite forallb_forall in Hall.
    specialize (Hall (new_task CEntitiesSource
                        (EntitiesSource_Start (aEntitiesSource a))
                        (sourcesCtx (Start_frame (boot a))))).
    cbn in Hall. discriminate Hall. apply in_or_app. right. by left. }
  cbn [eg_Wait]. unfold bind, get, ret. cbn [fst snd]. rewrite Hb.
  cbn [fst snd]. split; [done|]. split.
  - apply Done_child, Done_fired. exact Hf.
  - intros c Hc. cbn [launched authorized set_trace set_tasks tasks].
    rewrite !elem_of_cons, elem_of_nil in Hc.
    destruct Hc as [->|[->|[]]].
    + exists (new_task CEntitiesSource (EntitiesSource_Start (aEntitiesSource a))
                (sourcesCtx (Start_frame (boot a)))).
      split; [|done]. apply elem_of_app. right. apply elem_of_app. left.
      apply elem_of_cons. by left.
    + exists (new_task CAuditor (Auditor_Start (aAuditor a))
                (sourcesCtx (Start_frame (boot a)))).
      split; [|done]. unfold sources. rewrite !elem_of_app. do 4 right.
      apply elem_of_cons. by left.
Qed.

Lemma Stop_during_authorization_still_launches_witness :
  let a := sample_agent (sample_gateway None) (until_cancelled None) true false in
  let run := Start ([Tick CGateway] ++ CallStop :: [Tick CGateway]) [] (boot a) in
  run.1.2 = Blocked ∧
  Done (fired run.2) (sourcesCtx run.1.1) = true ∧
  ∀ c, c ∈ [CEntitiesSource; CAuditor] →
       ∃ t, t ∈ tasks run.2 ∧ who t = c ∧ ctx t = sourcesCtx run.1.1 ∧
            steps t = 0 ∧ result t = None.
Proof.
  cbv zeta.
  apply (Stop_during_authorization_still_launches
           (sample_agent (sample_gateway None) (until_cancelled None) true false)
           [Tick CGateway] [Tick CGateway]).
  reflexivity.
Defined.

(** * The configuration of the Kubernetes client *)

(** The run of [getKRestConfig] on a user-defined configuration, written
    out: the token comes from the arguments or else from the environment,
    the root CA is kept only if its pool loads. *)
Lemma getKRestConfig_user (E : Env) (args : gmap string arg) (host : string)
    (insecure : bool) (d : Duration) :
  lookup_arg args "--kube-incluster" = ArgBool false →
  lookup_arg args "--kube-url" = ArgString host →
  lookup_arg args "--kube-insecure" = ArgBool insecure →
  MustParseDuration E args "--kube-timeout" = Some d →
  let token := (string_ok (lookup_arg args "--kube-token")).1 in
  let ca := string_ok (lookup_arg args "--kube-root-ca-cert") in
  let loaded := ca.2 && bool_decide (NewPool E ca.1 = None) in
  getKRestConfig E args =
    (LogInfo "initializing kubernetes user-defined config" ::
     match ca.2, NewPool E ca.1 with
     | true, Some err =>
       [Printf ("Expected to load root CA config from " +:+ ca.1
                +:+ ", but got err: " +:+ err)%string]
     | _, _ => []
     end,
     Some (Some {| Host := host; APIPath := "/api"; ContentType := ContentTypeJSON;
                   BearerToken := if decide (token = ""%string)
                                  then Getenv E "KUBE_TOKEN" else token;
                   TLS := {| Insecure := insecure;
                             CAFile := if loaded then ca.1 else ""%string |};
                   Timeout := d |},
           None)).
Proof.
  intros Hin Hurl Hins Hd. cbv zeta. unfold getKRestConfig.
  rewrite Hin, Hurl, Hins, Hd.
  destruct (string_ok (lookup_arg args "--kube-root-ca-cert")) as [file [|]];
    cbn; [|by destruct insecure].
  by destruct (NewPool E file), insecure.
Qed.

(** In a user-defined configuration the bearer token is the one of
    [--kube-token] when that is a non-empty string, and the value of
    KUBE_TOKEN in the environment otherwise; the host, the insecure flag
    and the timeout are those of the arguments. *)
Theorem getKRestConfig_token_falls_back_to_the_environment (E : Env)
    (args : gmap string arg) (host : string) (insecure : bool) (d : Duration) :
  lookup_arg args "--kube-incluster" = ArgBool false →
  lookup_arg args "--kube-url" = ArgString host →
  lookup_arg args "--kube-insecure" = ArgBool insecure →
  MustParseDuration E args "--kube-timeout" = Some d →
  ∃ out cfg,
    getKRestConfig E args = (out, Some (Some cfg, None)) ∧
    BearerToken cfg
      = match lookup_arg args "--kube-token" with
        | ArgString "" => Getenv E "KUBE_TOKEN"
        | ArgString t => t
        | _ => Getenv E "KUBE_TOKEN"
        end ∧
    Host cfg = host ∧ Insecure (TLS cfg) = insecure ∧ Timeout cfg = d ∧
    APIPath cfg = "/api"%string ∧ ContentType cfg = "application/json"%string.
Proof.
  intros Hin Hurl Hins Hd.
  rewrite (getKRestConfig_user E args host insecure d Hin Hurl Hins Hd).
  eexists _, _. split; [reflexivity|]. cbn.
  split; [|done].
  destruct (lookup_arg args "--kube-token") as [| |t|]; cbn; try done.
  case_decide; [by subst|]. by destruct t.
Qed.

Lemma getKRestConfig_token_falls_back_to_the_environment_witness :
  let E := sample_env (inr "not in a cluster"%string) in
  let args := sample_args false ArgNil ArgNil in
  ∃ out cfg,
    getKRestConfig E args = (out, Some (Some cfg, None)) ∧
    BearerToken cfg
      = match lookup_arg args "--kube-token" with
        | ArgString "" => Getenv E "KUBE_TOKEN"
        | ArgString t => t
        | _ => Getenv E "KUBE_TOKEN"
        end ∧
    Host cfg = "https://10.0.0.1:6443"%string ∧ Insecure (TLS cfg) = true ∧
    Timeout cfg = (30 * Second)%Z ∧
    APIPath cfg = "/api"%string ∧ ContentType cfg = "application/json"%string.
Proof.
  cbv zeta.
  apply (getKRestConfig_token_falls_back_to_the_environment
           (sample_env (inr "not in a cluster"%string))
           (sample_args false ArgNil ArgNil)); by vm_compute.
Defined.

(** In a user-defined configuration a root CA file that does not load is
    reported on the standard output and otherwise ignored: the call still
    returns a configuration and a nil error, and the configuration names
    the CA file exactly when [--kube-root-ca-cert] is a string and the
    pool of that file loads. *)
Theorem getKRestConfig_bad_root_CA_is_ignored (E : Env)
    (args : gmap string arg) (host : string) (insecure : bool) (d : Duration) :
  lookup_arg args "--kube-incluster" = ArgBool false →
  lookup_arg args "--kube-url" = ArgString host →
  lookup_arg args "--kube-insecure" = ArgBool insecure →
  MustParseDuration E args "--kube-timeout" = Some d →
  ∃ out cfg,
    getKRestConfig E args = (out, Some (Some cfg, None)) ∧
    match lookup_arg args "--kube-root-ca-cert" with
    | ArgString file =>
      match NewPool E file with
      | None => CAFile (TLS cfg) = file ∧ ∀ msg, Printf msg ∉ out
      | Some err =>
        CAFile (TLS cfg) = ""%string ∧
        Printf ("Expected to load root CA config from " +:+ file
                +:+ ", but got err: " +:+ err)%string ∈ out
      end
    | _ => CAFile (TLS cfg) = ""%string ∧ ∀ msg, Printf msg ∉ out
    end.
Proof.
  intros Hin Hurl Hins Hd.
  rewrite (getKRestConfig_user E args host insecure d Hin Hurl Hins Hd).
  eexists _, _. split; [reflexivity|].
  destruct (lookup_arg args "--kube-root-ca-cert") as [| |file|]; cbn;
    try (split; [done|]; intros msg; set_solver).
  destruct (NewPool E file); cbn.
  - split; [done|]. set_solver.
  - split; [done|]. intros msg. set_solver.
Qed.

Lemma getKRestConfig_bad_root_CA_is_ignored_witness :
  let E := sample_env (inr "not in a cluster"%string) in
  let args := sample_args false (ArgString "t0ken") (ArgString "bad.pem") in
  ∃ out cfg,
    getKRestConfig E args = (out, Some (Some cfg, None)) ∧
    match lookup_arg args "--kube-root-ca-cert" with
    | ArgString file =>
      match NewPool E file with
      | None => CAFile (TLS cfg) = file ∧ ∀ msg, Printf msg ∉ out
      | Some err =>
        CAFile (TLS cfg) = ""%string ∧
        Printf ("Expected to load root CA config from " +:+ file
                +:+ ", but got err: " +:+ err)%string ∈ out
      end
    | _ => CAFile (TLS cfg) = ""%string ∧ ∀ msg, Printf msg ∉ out
    end.
Proof.
  cbv zeta.
  apply (getKRestConfig_bad_root_CA_is_ignored
           (sample_env (inr "not in a cluster"%string))
           (sample_args false (ArgString "t0ken") (ArgString "bad.pem"))
           "https://10.0.0.1:6443"%string true (30 * Second)%Z); by vm_compute.
Defined.

(** In an in-cluster configuration a failure of [rest.InClusterConfig]
    is returned wrapped, with a nil configuration, whatever the other
    arguments and the environment are: neither the user-defined flags
    nor [--kube-timeout] are read, so a timeout that does not parse
    does not make this call panic. *)
Theorem getKRestConfig_in_cluster_failure (E : Env) (args : gmap string arg)
    (err : error) :
  lookup_arg args "--kube-incluster" = ArgBool true →
  InClusterConfig E = inr err →
  getKRestConfig E args
    = ([LogInfo "initializing kubernetes incluster config"],
       Some (None, Some ("unable to get incluster config: " +:+ err)%string)).
Proof.
  intros Hin Herr. unfold getKRestConfig. by rewrite Hin, Herr.
Qed.

Lemma getKRestConfig_in_cluster_failure_witness :
  getKRestConfig (sample_env (inr "no service account"%string))
                 {[ "--kube-incluster"%string := ArgBool true ]}
    = ([LogInfo "initializing kubernetes incluster config"],
       Some (None, Some "unable to get incluster config: no service account"%string))
  ∧ MustParseDuration (sample_env (inr "no service account"%string))
      {[ "--kube-incluster"%string := ArgBool true ]} "--kube-timeout" = None.
Proof.
  split; [|reflexivity].
  apply (getKRestConfig_in_cluster_failure
           (sample_env (inr "no service account"%string))
           {[ "--kube-incluster"%string := ArgBool true ]}); by vm_compute.
Defined.

(** Whenever [getKRestConfig] returns, exactly one of its two results is
    nil.  An error is returned in in-cluster mode only, and it is the
    wrapped error of [rest.InClusterConfig]; a configuration that is
    returned has the parsed [--kube-timeout] as its timeout, also in
    in-cluster mode, where it is otherwise the configuration of the
    cluster. *)
Theorem getKRestConfig_results (E : Env) (args : gmap string arg) :
  match (getKRestConfig E args).2 with
  | None => True
  | Some (None, None) | Some (Some _, Some _) => False
  | Some (None, Some err) =>
    lookup_arg args "--kube-incluster" = ArgBool true ∧
    ∃ cause, InClusterConfig E = inr cause ∧
             err = ("unable to get incluster config: " +:+ cause)%string
  | Some (Some cfg, None) =>
    MustParseDuration E args "--kube-timeout" = Some (Timeout cfg) ∧
    (lookup_arg args "--kube-incluster" = ArgBool true →
     ∃ c, InClusterConfig E = inl c ∧ cfg = with_Timeout (Timeout cfg) c)
  end.
Proof.
  unfold getKRestConfig.
  destruct (lookup_arg args "--kube-incluster") as [|[|]| |] eqn:Hin; cbn;
    try done.
  - destruct (InClusterConfig E) as [c|cause]; cbn; [|by eauto].
    destruct (MustParseDuration E args "--kube-timeout") as [d|]; cbn; [|done].
    split; [done|]. intros _. by exists c.
  - destruct (lookup_arg args "--kube-url") as [| |host|]; cbn; try done.
    destruct (string_ok (lookup_arg args "--kube-root-ca-cert")) as [file [|]];
      cbn.
    + destruct (NewPool E file); cbn;
        destruct (lookup_arg args "--kube-insecure") as [|[|]| |]; cbn;
        try done;
        destruct (MustParseDuration E args "--kube-timeout"); cbn; try done.
    + destruct (lookup_arg args "--kube-insecure") as [|[|]| |]; cbn;
        try done;
        destruct (MustParseDuration E args "--kube-timeout"); cbn; try done.
Qed.

(** [getKRestConfig] panics unless its arguments are well typed: it
    returns exactly when [--kube-incluster] is a boolean and either, in
    in-cluster mode, [rest.InClusterConfig] fails or the timeout parses,
    or, in user-defined mode, [--kube-url] is a string, [--kube-insecure]
    is a boolean and the timeout parses.  The token and the root CA file
    may be missing or of any type. *)
Theorem getKRestConfig_returns_iff (E : Env) (args : gmap string arg) :
  is_Some (getKRestConfig E args).2 ↔
  ∃ incluster, lookup_arg args "--kube-incluster" = ArgBool incluster ∧
    if incluster
    then (∃ cause, InClusterConfig E = inr cause) ∨
         is_Some (MustParseDuration E args "--kube-timeout")
    else (∃ host, lookup_arg args "--kube-url" = ArgString host) ∧
         (∃ insecure, lookup_arg args "--kube-insecure" = ArgBool insecure) ∧
         is_Some (MustParseDuration E args "--kube-timeout").
Proof.
  unfold getKRestConfig, is_Some.
  destruct (lookup_arg args "--kube-incluster") as [|[|]| |] eqn:Hin; cbn;
    [naive_solver| |  |naive_solver..].
  - destruct (InClusterConfig E) as [c|cause]; cbn; [|naive_solver].
    destruct (MustParseDuration E args "--kube-timeout") as [d|]; cbn;
      naive_solver.
  - destruct (lookup_arg args "--kube-url") as [| |host|]; cbn;
      [naive_solver..| |naive_solver].
    destruct (string_ok (lookup_arg args "--kube-root-ca-cert")) as [file [|]];
      cbn; [destruct (NewPool E file); cbn|];
      destruct (lookup_arg args "--kube-insecure") as [|[|]| |]; cbn;
      try naive_solver;
      destruct (MustParseDuration E args "--kube-timeout"); cbn;
      naive_solver.
Qed.
